(** * FarmBot JavaScript client

    Part I embeds the data model declared in [src/interfaces.ts]: every
    exported type becomes a Rocq type, and every typed record is given the
    JavaScript object it denotes (its property names and values).  An
    interface says which properties an object has at least; the manifests,
    which Farmware authors write, are modelled with the further properties
    they may carry.

    Part II models the state-synchronisation and command-correlation engine
    (StateTree Store, Correlator, Dispatcher, Ingress Router).  The
    repository ships only the type declarations of that engine, so its
    operations are modelled from the written specification.

    Part III states and proves the properties. *)

From stdpp Require Import gmap strings list fin_maps.

Open Scope string_scope.
Open Scope list_scope.

(** [Dictionary<T>]: an object indexed by arbitrary strings.  A value type
    [T | undefined] is [option T]. *)
Abbreviation Dictionary T := (gmap string T).

Section Farmbot.

(** [number] is the JavaScript number type.  No operation of the data model
    or of the engine computes with numbers, so the carrier is left
    abstract. *)
Context {number : Type}.

(** ** Part I: [interfaces.ts] *)

(** [Primitive = string | number | boolean] *)
Inductive Primitive :=
| PString (s : string)
| PNumber (n : number)
| PBoolean (b : bool).

(** *** JavaScript values

    The values the typed records stand for at run time: [undefined], the
    primitives, arrays, and objects (finite maps from property names to
    values). *)
#[local] Unset Elimination Schemes.
Inductive JSValue :=
| JSUndefined
| JSPrimitive (p : Primitive)
| JSArray (l : list JSValue)
| JSObject (m : gmap string JSValue).
#[local] Set Elimination Schemes.

(** A property declared [f?: T] (or a key of a [Partial<...>]): it can be
    left out of the object, be there holding [undefined], or hold a [T]. *)
Inductive Optional (T : Type) :=
| Absent
| Undefined
| Present (t : T).
Arguments Absent {T}.
Arguments Undefined {T}.
Arguments Present {T} t.

(** Reading a property, as [o.f] does in JavaScript: a property left out
    and a property holding [undefined] both read as [undefined] ([None]). *)
Definition read {T : Type} (o : Optional T) : option T :=
  match o with
  | Present t => Some t
  | Absent | Undefined => None
  end.

(** Reading [d[k]] from an object indexed by strings or by numbers whose
    values have the type [T | undefined]. *)
Definition dict_read {K : Type} `{Countable K} {T : Type}
    (d : gmap K (option T)) (k : K) : option T :=
  match d !! k with
  | Some (Some t) => Some t
  | Some None | None => None
  end.

(** Microcontroller board. *)
Inductive FirmwareHardware :=
| arduino
| farmduino
| farmduino_k14.

(** FarmBot motor and encoder positions. *)
Inductive LocationName :=
| position
| scaled_encoders
| raw_encoders.

(** Job progress status. *)
Inductive ProgressStatus :=
| complete
| working
| error.

(** Percent job progress.  The property [unit] has the literal type
    ["percent"]: it holds no information and is the constant [pp_unit]. *)
Record PercentageProgress := {
  pp_status : ProgressStatus;
  pp_percent : number;
}.

Definition pp_unit (p : PercentageProgress) : string := "percent".

(** Bytes job progress; [unit] has the literal type ["bytes"]. *)
Record BytesProgress := {
  bp_status : ProgressStatus;
  bp_bytes : number;
}.

Definition bp_unit (b : BytesProgress) : string := "bytes".

(** [JobProgress = PercentageProgress | BytesProgress] *)
Inductive JobProgress :=
| JobPercentage (p : PercentageProgress)
| JobBytes (b : BytesProgress).

(** Identified FarmBot OS problem. *)
Record Enigma := {
  enigma_created_at : number;
  enigma_problem_tag : string;
  enigma_priority : number;
  enigma_uuid : string;
}.

(** Some of the data provided by the Farmware author in a manifest of
    FarmBot OS < v8.  [meta_others] holds the properties of the object
    beyond the six the interface declares: an interface does not exclude
    them. *)
Record LegacyFarmwareManifestMeta := {
  meta_min_os_version_major : string;
  meta_description : string;
  meta_language : string;
  meta_version : string;
  meta_author : string;
  meta_zip : string;
  meta_others : gmap string JSValue;
}.

(** [FarmwareConfig = Record<"name" | "label" | "value", string>] *)
Record FarmwareConfig := {
  fc_name : string;
  fc_label : string;
  fc_value : string;
}.

(** Farmware manifest of FarmBot OS < v8.  [lfm_others] holds the
    properties of the object beyond the nine the interface declares. *)
Record LegacyFarmwareManifest := {
  lfm_farmware_tools_version : Optional string;
  lfm_executable : string;
  lfm_uuid : string;
  lfm_args : list string;
  lfm_name : string;
  lfm_url : string;
  lfm_path : string;
  lfm_meta : LegacyFarmwareManifestMeta;
  lfm_config : list FarmwareConfig;
  lfm_others : gmap string JSValue;
}.

(** Farmware manifest of FarmBot OS >= v8.  [fm_others] holds the
    properties of the object beyond the thirteen the interface declares. *)
Record FarmwareManifest := {
  fm_farmware_manifest_version : string;
  fm_package : string;
  fm_package_version : string;
  fm_description : string;
  fm_author : string;
  fm_language : string;
  fm_executable : string;
  fm_args : string;
  fm_config : Dictionary FarmwareConfig;
  fm_farmbot_os_version_requirement : string;
  fm_farmware_tools_version_requirement : string;
  fm_url : string;
  fm_zip : string;
  fm_others : gmap string JSValue;
}.

(** The value type of [process_info.farmwares]:
    [FarmwareManifest | LegacyFarmwareManifest]. *)
Inductive Farmware :=
| CurrentManifest (m : FarmwareManifest)
| LegacyManifest (m : LegacyFarmwareManifest).

(** [enum Encoder { unknown = -1, quadrature, differential }] *)
Inductive Encoder :=
| Encoder_unknown
| Encoder_quadrature
| Encoder_differential.

Definition Encoder_value (e : Encoder) : Z :=
  match e with
  | Encoder_unknown => -1
  | Encoder_quadrature => 0
  | Encoder_differential => 1
  end.

(** Microcontroller firmware hardware setting names. *)
Inductive McuParamName :=
| encoder_enabled_x
| encoder_enabled_y
| encoder_enabled_z
| encoder_invert_x
| encoder_invert_y
| encoder_invert_z
| encoder_missed_steps_decay_x
| encoder_missed_steps_decay_y
| encoder_missed_steps_decay_z
| encoder_missed_steps_max_x
| encoder_missed_steps_max_y
| encoder_missed_steps_max_z
| encoder_scaling_x
| encoder_scaling_y
| encoder_scaling_z
| encoder_type_x
| encoder_type_y
| encoder_type_z
| encoder_use_for_pos_x
| encoder_use_for_pos_y
| encoder_use_for_pos_z
| movement_axis_nr_steps_x
| movement_axis_nr_steps_y
| movement_axis_nr_steps_z
| movement_enable_endpoints_x
| movement_enable_endpoints_y
| movement_enable_endpoints_z
| movement_home_at_boot_x
| movement_home_at_boot_y
| movement_home_at_boot_z
| movement_home_spd_x
| movement_home_spd_y
| movement_home_spd_z
| movement_home_up_x
| movement_home_up_y
| movement_home_up_z
| movement_invert_2_endpoints_x
| movement_invert_2_endpoints_y
| movement_invert_2_endpoints_z
| movement_invert_endpoints_x
| movement_invert_endpoints_y
| movement_invert_endpoints_z
| movement_invert_motor_x
| movement_invert_motor_y
| movement_invert_motor_z
| movement_keep_active_x
| movement_keep_active_y
| movement_keep_active_z
| movement_max_spd_x
| movement_max_spd_y
| movement_max_spd_z
| movement_min_spd_x
| movement_min_spd_y
| movement_min_spd_z
| movement_secondary_motor_invert_x
| movement_secondary_motor_x
| movement_step_per_mm_x
| movement_step_per_mm_y
| movement_step_per_mm_z
| movement_steps_acc_dec_x
| movement_steps_acc_dec_y
| movement_steps_acc_dec_z
| movement_stop_at_home_x
| movement_stop_at_home_y
| movement_stop_at_home_z
| movement_stop_at_max_x
| movement_stop_at_max_y
| movement_stop_at_max_z
| movement_timeout_x
| movement_timeout_y
| movement_timeout_z
| param_e_stop_on_mov_err
| param_mov_nr_retry
| param_version
| pin_guard_1_active_state
| pin_guard_1_pin_nr
| pin_guard_1_time_out
| pin_guard_2_active_state
| pin_guard_2_pin_nr
| pin_guard_2_time_out
| pin_guard_3_active_state
| pin_guard_3_pin_nr
| pin_guard_3_time_out
| pin_guard_4_active_state
| pin_guard_4_pin_nr
| pin_guard_4_time_out
| pin_guard_5_active_state
| pin_guard_5_pin_nr
| pin_guard_5_time_out.

Definition McuParamName_str (n : McuParamName) : string :=
  match n with
  | encoder_enabled_x => "encoder_enabled_x"
  | encoder_enabled_y => "encoder_enabled_y"
  | encoder_enabled_z => "encoder_enabled_z"
  | encoder_invert_x => "encoder_invert_x"
  | encoder_invert_y => "encoder_invert_y"
  | encoder_invert_z => "encoder_invert_z"
  | encoder_missed_steps_decay_x => "encoder_missed_steps_decay_x"
  | encoder_missed_steps_decay_y => "encoder_missed_steps_decay_y"
  | encoder_missed_steps_decay_z => "encoder_missed_steps_decay_z"
  | encoder_missed_steps_max_x => "encoder_missed_steps_max_x"
  | encoder_missed_steps_max_y => "encoder_missed_steps_max_y"
  | encoder_missed_steps_max_z => "encoder_missed_steps_max_z"
  | encoder_scaling_x => "encoder_scaling_x"
  | encoder_scaling_y => "encoder_scaling_y"
  | encoder_scaling_z => "encoder_scaling_z"
  | encoder_type_x => "encoder_type_x"
  | encoder_type_y => "encoder_type_y"
  | encoder_type_z => "encoder_type_z"
  | encoder_use_for_pos_x => "encoder_use_for_pos_x"
  | encoder_use_for_pos_y => "encoder_use_for_pos_y"
  | encoder_use_for_pos_z => "encoder_use_for_pos_z"
  | movement_axis_nr_steps_x => "movement_axis_nr_steps_x"
  | movement_axis_nr_steps_y => "movement_axis_nr_steps_y"
  | movement_axis_nr_steps_z => "movement_axis_nr_steps_z"
  | movement_enable_endpoints_x => "movement_enable_endpoints_x"
  | movement_enable_endpoints_y => "movement_enable_endpoints_y"
  | movement_enable_endpoints_z => "movement_enable_endpoints_z"
  | movement_home_at_boot_x => "movement_home_at_boot_x"
  | movement_home_at_boot_y => "movement_home_at_boot_y"
  | movement_home_at_boot_z => "movement_home_at_boot_z"
  | movement_home_spd_x => "movement_home_spd_x"
  | movement_home_spd_y => "movement_home_spd_y"
  | movement_home_spd_z => "movement_home_spd_z"
  | movement_home_up_x => "movement_home_up_x"
  | movement_home_up_y => "movement_home_up_y"
  | movement_home_up_z => "movement_home_up_z"
  | movement_invert_2_endpoints_x => "movement_invert_2_endpoints_x"
  | movement_invert_2_endpoints_y => "movement_invert_2_endpoints_y"
  | movement_invert_2_endpoints_z => "movement_invert_2_endpoints_z"
  | movement_invert_endpoints_x => "movement_invert_endpoints_x"
  | movement_invert_endpoints_y => "movement_invert_endpoints_y"
  | movement_invert_endpoints_z => "movement_invert_endpoints_z"
  | movement_invert_motor_x => "movement_invert_motor_x"
  | movement_invert_motor_y => "movement_invert_motor_y"
  | movement_invert_motor_z => "movement_invert_motor_z"
  | movement_keep_active_x => "movement_keep_active_x"
  | movement_keep_active_y => "movement_keep_active_y"
  | movement_keep_active_z => "movement_keep_active_z"
  | movement_max_spd_x => "movement_max_spd_x"
  | movement_max_spd_y => "movement_max_spd_y"
  | movement_max_spd_z => "movement_max_spd_z"
  | movement_min_spd_x => "movement_min_spd_x"
  | movement_min_spd_y => "movement_min_spd_y"
  | movement_min_spd_z => "movement_min_spd_z"
  | movement_secondary_motor_invert_x => "movement_secondary_motor_invert_x"
  | movement_secondary_motor_x => "movement_secondary_motor_x"
  | movement_step_per_mm_x => "movement_step_per_mm_x"
  | movement_step_per_mm_y => "movement_step_per_mm_y"
  | movement_step_per_mm_z => "movement_step_per_mm_z"
  | movement_steps_acc_dec_x => "movement_steps_acc_dec_x"
  | movement_steps_acc_dec_y => "movement_steps_acc_dec_y"
  | movement_steps_acc_dec_z => "movement_steps_acc_dec_z"
  | movement_stop_at_home_x => "movement_stop_at_home_x"
  | movement_stop_at_home_y => "movement_stop_at_home_y"
  | movement_stop_at_home_z => "movement_stop_at_home_z"
  | movement_stop_at_max_x => "movement_stop_at_max_x"
  | movement_stop_at_max_y => "movement_stop_at_max_y"
  | movement_stop_at_max_z => "movement_stop_at_max_z"
  | movement_timeout_x => "movement_timeout_x"
  | movement_timeout_y => "movement_timeout_y"
  | movement_timeout_z => "movement_timeout_z"
  | param_e_stop_on_mov_err => "param_e_stop_on_mov_err"
  | param_mov_nr_retry => "param_mov_nr_retry"
  | param_version => "param_version"
  | pin_guard_1_active_state => "pin_guard_1_active_state"
  | pin_guard_1_pin_nr => "pin_guard_1_pin_nr"
  | pin_guard_1_time_out => "pin_guard_1_time_out"
  | pin_guard_2_active_state => "pin_guard_2_active_state"
  | pin_guard_2_pin_nr => "pin_guard_2_pin_nr"
  | pin_guard_2_time_out => "pin_guard_2_time_out"
  | pin_guard_3_active_state => "pin_guard_3_active_state"
  | pin_guard_3_pin_nr => "pin_guard_3_pin_nr"
  | pin_guard_3_time_out => "pin_guard_3_time_out"
  | pin_guard_4_active_state => "pin_guard_4_active_state"
  | pin_guard_4_pin_nr => "pin_guard_4_pin_nr"
  | pin_guard_4_time_out => "pin_guard_4_time_out"
  | pin_guard_5_active_state => "pin_guard_5_active_state"
  | pin_guard_5_pin_nr => "pin_guard_5_pin_nr"
  | pin_guard_5_time_out => "pin_guard_5_time_out"
  end.

Definition all_McuParamName : list McuParamName :=
  [ encoder_enabled_x; encoder_enabled_y; encoder_enabled_z; encoder_invert_x;
    encoder_invert_y; encoder_invert_z; encoder_missed_steps_decay_x;
    encoder_missed_steps_decay_y; encoder_missed_steps_decay_z;
    encoder_missed_steps_max_x; encoder_missed_steps_max_y;
    encoder_missed_steps_max_z; encoder_scaling_x; encoder_scaling_y;
    encoder_scaling_z; encoder_type_x; encoder_type_y; encoder_type_z;
    encoder_use_for_pos_x; encoder_use_for_pos_y; encoder_use_for_pos_z;
    movement_axis_nr_steps_x; movement_axis_nr_steps_y;
    movement_axis_nr_steps_z; movement_enable_endpoints_x;
    movement_enable_endpoints_y; movement_enable_endpoints_z;
    movement_home_at_boot_x; movement_home_at_boot_y; movement_home_at_boot_z;
    movement_home_spd_x; movement_home_spd_y; movement_home_spd_z;
    movement_home_up_x; movement_home_up_y; movement_home_up_z;
    movement_invert_2_endpoints_x; movement_invert_2_endpoints_y;
    movement_invert_2_endpoints_z; movement_invert_endpoints_x;
    movement_invert_endpoints_y; movement_invert_endpoints_z;
    movement_invert_motor_x; movement_invert_motor_y; movement_invert_motor_z;
    movement_keep_active_x; movement_keep_active_y; movement_keep_active_z;
    movement_max_spd_x; movement_max_spd_y; movement_max_spd_z;
    movement_min_spd_x; movement_min_spd_y; movement_min_spd_z;
    movement_secondary_motor_invert_x; movement_secondary_motor_x;
    movement_step_per_mm_x; movement_step_per_mm_y; movement_step_per_mm_z;
    movement_steps_acc_dec_x; movement_steps_acc_dec_y;
    movement_steps_acc_dec_z; movement_stop_at_home_x;
    movement_stop_at_home_y; movement_stop_at_home_z; movement_stop_at_max_x;
    movement_stop_at_max_y; movement_stop_at_max_z; movement_timeout_x;
    movement_timeout_y; movement_timeout_z; param_e_stop_on_mov_err;
    param_mov_nr_retry; param_version; pin_guard_1_active_state;
    pin_guard_1_pin_nr; pin_guard_1_time_out; pin_guard_2_active_state;
    pin_guard_2_pin_nr; pin_guard_2_time_out; pin_guard_3_active_state;
    pin_guard_3_pin_nr; pin_guard_3_time_out; pin_guard_4_active_state;
    pin_guard_4_pin_nr; pin_guard_4_time_out; pin_guard_5_active_state;
    pin_guard_5_pin_nr; pin_guard_5_time_out ].

(** [McuParams = Partial<Record<McuParamName, (number | undefined)>>] *)
Definition McuParams : Type := McuParamName -> Optional number.

(** Bot axis names: ["x" | "y" | "z"]. *)
Inductive Xyz :=
| axis_x
| axis_y
| axis_z.

(** [Vector3 = Record<Xyz, number>] *)
Definition Vector3 : Type := Xyz -> number.

(** GPIO pin value record. *)
Record Pin := {
  pin_mode : number;
  pin_value : number;
}.

(** [Pins = Dictionary<Pin | undefined>] *)
Definition Pins : Type := Dictionary (option Pin).

(** FarmBot OS configs.  [FullConfiguration] holds every property;
    [Configuration = Partial<FullConfiguration>] makes each one optional.
    The record is written once, over the wrapper [F] of its properties. *)
Record ConfigurationOf (F : Type -> Type) := {
  arduino_debug_messages : F number;
  auto_sync : F bool;
  beta_opt_in : F bool;
  disable_factory_reset : F bool;
  firmware_hardware : F FirmwareHardware;
  firmware_input_log : F bool;
  firmware_output_log : F bool;
  fw_auto_update : F number;
  network_not_found_timer : F number;
  os_auto_update : F number;
  sequence_body_log : F bool;
  sequence_complete_log : F bool;
  sequence_init_log : F bool;
}.
Arguments arduino_debug_messages {F} _.
Arguments auto_sync {F} _.
Arguments beta_opt_in {F} _.
Arguments disable_factory_reset {F} _.
Arguments firmware_hardware {F} _.
Arguments firmware_input_log {F} _.
Arguments firmware_output_log {F} _.
Arguments fw_auto_update {F} _.
Arguments network_not_found_timer {F} _.
Arguments os_auto_update {F} _.
Arguments sequence_body_log {F} _.
Arguments sequence_complete_log {F} _.
Arguments sequence_init_log {F} _.

Definition FullConfiguration : Type := ConfigurationOf (fun T => T).
Definition Configuration : Type := ConfigurationOf Optional.

(** [ConfigurationName = keyof Configuration] *)
Inductive ConfigurationName :=
| cn_arduino_debug_messages
| cn_auto_sync
| cn_beta_opt_in
| cn_disable_factory_reset
| cn_firmware_hardware
| cn_firmware_input_log
| cn_firmware_output_log
| cn_fw_auto_update
| cn_network_not_found_timer
| cn_os_auto_update
| cn_sequence_body_log
| cn_sequence_complete_log
| cn_sequence_init_log.

(** The possible values for the [sync_status] property. *)
Inductive SyncStatus :=
| booting
| maintenance
| sync_error
| sync_now
| synced
| syncing
| sync_unknown.

(** Various FarmBot OS status data. *)
Record InformationalSettings := {
  uptime : Optional number;
  disk_usage : Optional number;
  memory_usage : Optional number;
  soc_temp : Optional number;
  wifi_level : Optional number;
  controller_version : Optional string;
  firmware_version : Optional string;
  throttled : Optional string;
  private_ip : Optional string;
  sync_status : Optional SyncStatus;
  busy : bool;
  locked : bool;
  commit : string;
  firmware_commit : string;
  target : string;
  env : string;
  node_name : string;
  currently_on_beta : Optional bool;
  update_available : Optional bool;
}.

Inductive MQTTEventName :=
| mqtt_connect
| mqtt_message.

Record APIToken := {
  token_mqtt : string;
  token_mqtt_ws : string;
  token_bot : string;
}.

(** [process_info: { farmwares: Dictionary<...> }] *)
Record ProcessInfo := {
  farmwares : Dictionary Farmware;
}.

(** Everything the farmbot knows about itself at a given moment in time.
    [gpio_registry] is indexed by numbers: the property names of an object
    are strings, and a numeric index signature admits the names that are
    the string of a number.  The registry is kept by property name; the
    conversion of a number to its name is not part of the model. *)
Record BotStateTree := {
  mcu_params : McuParams;
  location_data : LocationName -> Xyz -> option number;
  pins : Pins;
  configuration : Configuration;
  informational_settings : InformationalSettings;
  user_env : Dictionary (option string);
  jobs : Dictionary (option JobProgress);
  process_info : ProcessInfo;
  gpio_registry : option (Dictionary (option string));
  enigmas : option (Dictionary (option Enigma));
}.

(** ** Reading and building JavaScript objects *)

Definition js_string (s : string) : JSValue := JSPrimitive (PString s).
Definition js_number (n : number) : JSValue := JSPrimitive (PNumber n).
Definition js_boolean (b : bool) : JSValue := JSPrimitive (PBoolean b).

(** A value of type [T | undefined]. *)
Definition js_or_undefined {T : Type} (f : T -> JSValue) (o : option T) : JSValue :=
  match o with
  | Some t => f t
  | None => JSUndefined
  end.

(** [o[k]]: a property that is not there reads as [undefined]. *)
Definition field (m : gmap string JSValue) (k : string) : JSValue :=
  default JSUndefined (m !! k).

(** [v.k1.k2...]: reading along a path of property names; reading a
    property of something that is not an object gives [undefined]. *)
Fixpoint get_path (p : list string) (v : JSValue) : JSValue :=
  match p with
  | [] => v
  | k :: p' =>
      match v with
      | JSObject m => get_path p' (field m k)
      | _ => JSUndefined
      end
  end.

(** The number of nodes of a value: the measure for inductions that go
    through the properties of an object. *)
Fixpoint JSValue_size (v : JSValue) : nat :=
  match v with
  | JSUndefined | JSPrimitive _ => 1
  | JSArray l => S (foldr (fun x acc => JSValue_size x + acc) 0 l)
  | JSObject m => S (map_fold (fun _ x acc => JSValue_size x + acc) 0 m)
  end.

(** Adding one declared property to an object under construction. *)
Definition set_optional (k : string) (o : Optional JSValue)
    (m : gmap string JSValue) : gmap string JSValue :=
  match o with
  | Absent => m
  | Undefined => <[k := JSUndefined]> m
  | Present v => <[k := v]> m
  end.

(** The object with the listed properties. *)
Definition object (fs : list (string * Optional JSValue)) : gmap string JSValue :=
  foldr (fun f m => set_optional f.1 f.2 m) ∅ fs.

(** The object with the listed declared properties and, beside them, the
    properties of [others] whose names are not declared. *)
Definition open_object (fs : list (string * Optional JSValue))
    (others : gmap string JSValue) : gmap string JSValue :=
  object fs ∪ filter (fun kv => kv.1 ∉ fs.*1) others.

Definition optional_map {A B : Type} (f : A -> B) (o : Optional A) : Optional B :=
  match o with
  | Absent => Absent
  | Undefined => Undefined
  | Present a => Present (f a)
  end.

(** A required property. *)
Definition req (k : string) (v : JSValue) : string * Optional JSValue :=
  (k, Present v).

(** An optional property. *)
Definition opt {T : Type} (k : string) (f : T -> JSValue) (o : Optional T)
    : string * Optional JSValue :=
  (k, optional_map f o).

(** A [Dictionary<T | undefined>] as an object. *)
Definition dict_to_js {T : Type} (f : T -> JSValue) (d : Dictionary (option T))
    : JSValue :=
  JSObject (js_or_undefined f <$> d).

(** *** The string literals of the enumerated types *)

Definition FirmwareHardware_str (h : FirmwareHardware) : string :=
  match h with
  | arduino => "arduino"
  | farmduino => "farmduino"
  | farmduino_k14 => "farmduino_k14"
  end.

Definition LocationName_str (l : LocationName) : string :=
  match l with
  | position => "position"
  | scaled_encoders => "scaled_encoders"
  | raw_encoders => "raw_encoders"
  end.

Definition all_LocationName : list LocationName :=
  [position; scaled_encoders; raw_encoders].

Definition ProgressStatus_str (s : ProgressStatus) : string :=
  match s with
  | complete => "complete"
  | working => "working"
  | error => "error"
  end.

Definition Xyz_str (a : Xyz) : string :=
  match a with
  | axis_x => "x"
  | axis_y => "y"
  | axis_z => "z"
  end.

Definition all_Xyz : list Xyz := [axis_x; axis_y; axis_z].

Definition SyncStatus_str (s : SyncStatus) : string :=
  match s with
  | booting => "booting"
  | maintenance => "maintenance"
  | sync_error => "sync_error"
  | sync_now => "sync_now"
  | synced => "synced"
  | syncing => "syncing"
  | sync_unknown => "unknown"
  end.

Definition ConfigurationName_str (c : ConfigurationName) : string :=
  match c with
  | cn_arduino_debug_messages => "arduino_debug_messages"
  | cn_auto_sync => "auto_sync"
  | cn_beta_opt_in => "beta_opt_in"
  | cn_disable_factory_reset => "disable_factory_reset"
  | cn_firmware_hardware => "firmware_hardware"
  | cn_firmware_input_log => "firmware_input_log"
  | cn_firmware_output_log => "firmware_output_log"
  | cn_fw_auto_update => "fw_auto_update"
  | cn_network_not_found_timer => "network_not_found_timer"
  | cn_os_auto_update => "os_auto_update"
  | cn_sequence_body_log => "sequence_body_log"
  | cn_sequence_complete_log => "sequence_complete_log"
  | cn_sequence_init_log => "sequence_init_log"
  end.

Definition all_ConfigurationName : list ConfigurationName :=
  [ cn_arduino_debug_messages; cn_auto_sync; cn_beta_opt_in;
    cn_disable_factory_reset; cn_firmware_hardware; cn_firmware_input_log;
    cn_firmware_output_log; cn_fw_auto_update; cn_network_not_found_timer;
    cn_os_auto_update; cn_sequence_body_log; cn_sequence_complete_log;
    cn_sequence_init_log ].

(** *** The object each typed record stands for *)

Definition PercentageProgress_to_js (p : PercentageProgress) : JSValue :=
  JSObject (object
    [ req "status" (js_string (ProgressStatus_str (pp_status p)));
      req "unit" (js_string (pp_unit p));
      req "percent" (js_number (pp_percent p)) ]).

Definition BytesProgress_to_js (b : BytesProgress) : JSValue :=
  JSObject (object
    [ req "status" (js_string (ProgressStatus_str (bp_status b)));
      req "unit" (js_string (bp_unit b));
      req "bytes" (js_number (bp_bytes b)) ]).

Definition JobProgress_to_js (j : JobProgress) : JSValue :=
  match j with
  | JobPercentage p => PercentageProgress_to_js p
  | JobBytes b => BytesProgress_to_js b
  end.

Definition JobProgress_status (j : JobProgress) : ProgressStatus :=
  match j with
  | JobPercentage p => pp_status p
  | JobBytes b => bp_status b
  end.

Definition Enigma_to_js (e : Enigma) : JSValue :=
  JSObject (object
    [ req "created_at" (js_number (enigma_created_at e));
      req "problem_tag" (js_string (enigma_problem_tag e));
      req "priority" (js_number (enigma_priority e));
      req "uuid" (js_string (enigma_uuid e)) ]).

Definition LegacyFarmwareManifestMeta_to_js (m : LegacyFarmwareManifestMeta)
    : JSValue :=
  JSObject (open_object
    [ req "min_os_version_major" (js_string (meta_min_os_version_major m));
      req "description" (js_string (meta_description m));
      req "language" (js_string (meta_language m));
      req "version" (js_string (meta_version m));
      req "author" (js_string (meta_author m));
      req "zip" (js_string (meta_zip m)) ]
    (meta_others m)).

Definition FarmwareConfig_to_js (c : FarmwareConfig) : JSValue :=
  JSObject (object
    [ req "name" (js_string (fc_name c));
      req "label" (js_string (fc_label c));
      req "value" (js_string (fc_value c)) ]).

(** The object of a legacy manifest: its declared properties and the
    further ones it carries. *)
Definition LegacyFarmwareManifest_to_js (m : LegacyFarmwareManifest) : JSValue :=
  JSObject (open_object
    [ opt "farmware_tools_version" js_string (lfm_farmware_tools_version m);
      req "executable" (js_string (lfm_executable m));
      req "uuid" (js_string (lfm_uuid m));
      req "args" (JSArray (js_string <$> lfm_args m));
      req "name" (js_string (lfm_name m));
      req "url" (js_string (lfm_url m));
      req "path" (js_string (lfm_path m));
      req "meta" (LegacyFarmwareManifestMeta_to_js (lfm_meta m));
      req "config" (JSArray (FarmwareConfig_to_js <$> lfm_config m)) ]
    (lfm_others m)).

(** The object of a current manifest: its declared properties and the
    further ones it carries. *)
Definition FarmwareManifest_to_js (m : FarmwareManifest) : JSValue :=
  JSObject (open_object
    [ req "farmware_manifest_version" (js_string (fm_farmware_manifest_version m));
      req "package" (js_string (fm_package m));
      req "package_version" (js_string (fm_package_version m));
      req "description" (js_string (fm_description m));
      req "author" (js_string (fm_author m));
      req "language" (js_string (fm_language m));
      req "executable" (js_string (fm_executable m));
      req "args" (js_string (fm_args m));
      req "config" (JSObject (FarmwareConfig_to_js <$> fm_config m));
      req "farmbot_os_version_requirement"
        (js_string (fm_farmbot_os_version_requirement m));
      req "farmware_tools_version_requirement"
        (js_string (fm_farmware_tools_version_requirement m));
      req "url" (js_string (fm_url m));
      req "zip" (js_string (fm_zip m)) ]
    (fm_others m)).

Definition Farmware_to_js (f : Farmware) : JSValue :=
  match f with
  | CurrentManifest m => FarmwareManifest_to_js m
  | LegacyManifest m => LegacyFarmwareManifest_to_js m
  end.

Definition McuParams_to_js (p : McuParams) : JSValue :=
  JSObject (object
    ((fun n => opt (McuParamName_str n) js_number (p n)) <$> all_McuParamName)).

Definition Pin_to_js (p : Pin) : JSValue :=
  JSObject (object
    [ req "mode" (js_number (pin_mode p));
      req "value" (js_number (pin_value p)) ]).

(** [Record<Xyz, (number | undefined)>] *)
Definition axes_to_js (a : Xyz -> option number) : JSValue :=
  JSObject (object
    ((fun i => req (Xyz_str i) (js_or_undefined js_number (a i))) <$> all_Xyz)).

(** [Record<LocationName, Record<Xyz, (number | undefined)>>] *)
Definition location_data_to_js (l : LocationName -> Xyz -> option number)
    : JSValue :=
  JSObject (object
    ((fun n => req (LocationName_str n) (axes_to_js (l n))) <$> all_LocationName)).

(** [c[n]] for a configuration name [n]. *)
Definition Configuration_field (c : Configuration) (n : ConfigurationName)
    : Optional JSValue :=
  match n with
  | cn_arduino_debug_messages => optional_map js_number (arduino_debug_messages c)
  | cn_auto_sync => optional_map js_boolean (auto_sync c)
  | cn_beta_opt_in => optional_map js_boolean (beta_opt_in c)
  | cn_disable_factory_reset => optional_map js_boolean (disable_factory_reset c)
  | cn_firmware_hardware =>
      optional_map (fun h => js_string (FirmwareHardware_str h)) (firmware_hardware c)
  | cn_firmware_input_log => optional_map js_boolean (firmware_input_log c)
  | cn_firmware_output_log => optional_map js_boolean (firmware_output_log c)
  | cn_fw_auto_update => optional_map js_number (fw_auto_update c)
  | cn_network_not_found_timer => optional_map js_number (network_not_found_timer c)
  | cn_os_auto_update => optional_map js_number (os_auto_update c)
  | cn_sequence_body_log => optional_map js_boolean (sequence_body_log c)
  | cn_sequence_complete_log => optional_map js_boolean (sequence_complete_log c)
  | cn_sequence_init_log => optional_map js_boolean (sequence_init_log c)
  end.

Definition Configuration_to_js (c : Configuration) : JSValue :=
  JSObject (object
    ((fun n => (ConfigurationName_str n, Configuration_field c n))
       <$> all_ConfigurationName)).

Definition InformationalSettings_to_js (i : InformationalSettings) : JSValue :=
  JSObject (object
    [ opt "uptime" js_number (uptime i);
      opt "disk_usage" js_number (disk_usage i);
      opt "memory_usage" js_number (memory_usage i);
      opt "soc_temp" js_number (soc_temp i);
      opt "wifi_level" js_number (wifi_level i);
      opt "controller_version" js_string (controller_version i);
      opt "firmware_version" js_string (firmware_version i);
      opt "throttled" js_string (throttled i);
      opt "private_ip" js_string (private_ip i);
      opt "sync_status" (fun s => js_string (SyncStatus_str s)) (sync_status i);
      req "busy" (js_boolean (busy i));
      req "locked" (js_boolean (locked i));
      req "commit" (js_string (commit i));
      req "firmware_commit" (js_string (firmware_commit i));
      req "target" (js_string (target i));
      req "env" (js_string (env i));
      req "node_name" (js_string (node_name i));
      opt "currently_on_beta" js_boolean (currently_on_beta i);
      opt "update_available" js_boolean (update_available i) ]).

Definition ProcessInfo_to_js (p : ProcessInfo) : JSValue :=
  JSObject (object
    [ req "farmwares" (JSObject (Farmware_to_js <$> farmwares p)) ]).

(** [{ [pin: number]: string | undefined }], by property name. *)
Definition gpio_registry_to_js (g : Dictionary (option string)) : JSValue :=
  dict_to_js js_string g.

Definition BotStateTree_to_js (t : BotStateTree) : JSValue :=
  JSObject (object
    [ req "mcu_params" (McuParams_to_js (mcu_params t));
      req "location_data" (location_data_to_js (location_data t));
      req "pins" (dict_to_js Pin_to_js (pins t));
      req "configuration" (Configuration_to_js (configuration t));
      req "informational_settings"
        (InformationalSettings_to_js (informational_settings t));
      req "user_env" (dict_to_js js_string (user_env t));
      req "jobs" (dict_to_js JobProgress_to_js (jobs t));
      req "process_info" (ProcessInfo_to_js (process_info t));
      req "gpio_registry" (js_or_undefined gpio_registry_to_js (gpio_registry t));
      req "enigmas" (js_or_undefined (dict_to_js Enigma_to_js) (enigmas t)) ]).

(** ** Part II: the engine

    [interfaces.ts] declares the shape of the state; the operations on it
    are modelled here, component by component, from the specification. *)

(** *** StateTree Store *)

(** Modelled from the spec: the field-by-field union behind the StateTree
    Store's [merge] (section 4.1), whose code is not among the sources.
    [merge_value p s] merges the partial value [p] into the existing value
    [s]: an [undefined] leaves [s] as it is; an object merged into an object
    goes through its properties one by one, recursively; anything else that
    is present overwrites [s]. *)
Fixpoint merge_value (p s : JSValue) {struct p} : JSValue :=
  match p with
  | JSUndefined => s
  | JSObject pm =>
      match s with
      | JSObject sm =>
          JSObject (merge (fun po so =>
            match po with
            | None | Some JSUndefined => so
            | Some pv => Some (merge_value pv (default JSUndefined so))
            end) pm sm)
      | _ => p
      end
  | _ => p
  end.

(** What [merge_value] does to one property of an object: [po] is the
    property in the partial value and [so] the one in the existing object. *)
Definition merge_field (po so : option JSValue) : option JSValue :=
  match po with
  | None | Some JSUndefined => so
  | Some pv => Some (merge_value pv (default JSUndefined so))
  end.

(** Modelled from the spec: the StateTree Store (sections 3 and 4.1), absent
    from the sources: the current tree and the change notifications emitted
    so far, each carrying the prior and the new snapshot. *)
Record Store := {
  tree : JSValue;
  notifications : list (JSValue * JSValue);
}.

(** Modelled from the spec: "StateTree is created empty at engine start"
    (section 3); the engine code is absent from the sources. *)
Definition empty_store : Store :=
  {| tree := JSObject ∅; notifications := [] |}.

(** Modelled from the spec: [snapshot() -> StateTree] (section 4.1), absent
    from the sources. *)
Definition snapshot (st : Store) : JSValue := tree st.

(** Modelled from the spec: [merge(partial) -> void] (section 4.1), absent
    from the sources; the notification is emitted once the merge is
    applied. *)
Definition merge_partial (partial : JSValue) (st : Store) : Store :=
  let new := merge_value partial (tree st) in
  {| tree := new; notifications := notifications st ++ [(tree st, new)] |}.

(** Modelled from the spec: [replaceAll(full) -> void] (section 4.1), absent
    from the sources. *)
Definition replaceAll (full : JSValue) (st : Store) : Store :=
  {| tree := full; notifications := notifications st ++ [(tree st, full)] |}.

(** Whether the partial value [p] says nothing at the path [ks]: going down
    [p] along [ks] through objects only, a property is left out or holds
    [undefined]. *)
Fixpoint absent_in (ks : list string) (p : JSValue) : bool :=
  match p with
  | JSUndefined => true
  | JSObject m =>
      match ks with
      | [] => false
      | k :: ks' => absent_in ks' (field m k)
      end
  | _ => false
  end.

(** The partial value [p] respects the shape of the existing value [s]:
    it puts an object wherever [s] has one.  A partial state tree has the
    shape of the state tree, so its merges are of this kind. *)
Inductive fits : JSValue -> JSValue -> Prop :=
| fits_undefined (s : JSValue) : fits JSUndefined s
| fits_no_object (p s : JSValue) :
    (forall sm, s <> JSObject sm) -> fits p s
| fits_object (pm sm : gmap string JSValue) :
    (forall k pv, pm !! k = Some pv -> fits pv (field sm k)) ->
    fits (JSObject pm) (JSObject sm).

(** *** Correlator *)

(** Modelled from the spec: the error taxonomy of section 7; the engine
    code is absent from the sources. *)
Inductive EngineError :=
| TransportError
| TimeoutError
| DeviceError (detail : string)
| ConnectionLostError
| MalformedMessageError.

(** Modelled from the spec: the resolution state of a PendingCommand
    (section 3), with the value or the error to deliver. *)
Inductive Resolution :=
| Pending
| ResolvedSuccess (result : JSValue)
| ResolvedError (e : EngineError)
| TimedOut.

(** Modelled from the spec: PendingCommand (section 3), absent from the
    sources. *)
Record PendingCommand := {
  correlation_id : N;
  submitted_at : N;
  timeout : option N;
  resolution : Resolution;
}.

(** Modelled from the spec: the diagnostics the engine logs (sections 4.2
    and 4.4), absent from the sources. *)
Inductive Diagnostic :=
| NotPending (id : N)
| DroppedMessage.

(** Modelled from the spec: the Correlator (section 4.2), absent from the
    sources: the outstanding commands by correlation id, the deliveries made
    to the handles (each a command in its final resolution state, in the
    order they were made), and the log. *)
Record Correlator := {
  pending : gmap N PendingCommand;
  delivered : list PendingCommand;
  diagnostics : list Diagnostic;
}.

(** Modelled from the spec: the Correlator at engine start, with no
    outstanding command (section 3). *)
Definition empty_correlator : Correlator :=
  {| pending := ∅; delivered := []; diagnostics := [] |}.

(** Modelled from the spec: [register(id) -> handle] (section 4.2), absent
    from the sources.  The handle is the correlation id. *)
Definition register (id now : N) (tmo : option N) (c : Correlator) : Correlator :=
  {| pending :=
       <[id := {| correlation_id := id; submitted_at := now;
                  timeout := tmo; resolution := Pending |}]> (pending c);
     delivered := delivered c;
     diagnostics := diagnostics c |}.

(** Modelled from the spec: the transition of a PendingCommand out of
    pending (section 4.2): the entry is destroyed and its outcome delivered
    to the handle; on an id that is not pending nothing happens but a log
    entry. *)
Definition settle (id : N) (r : Resolution) (c : Correlator) : Correlator :=
  match pending c !! id with
  | Some pc =>
      {| pending := delete id (pending c);
         delivered := delivered c ++
           [ {| correlation_id := id; submitted_at := submitted_at pc;
                timeout := timeout pc; resolution := r |} ];
         diagnostics := diagnostics c |}
  | None =>
      {| pending := pending c;
         delivered := delivered c;
         diagnostics := diagnostics c ++ [NotPending id] |}
  end.

(** Modelled from the spec: [resolve(id, result)] (section 4.2), absent
    from the sources. *)
Definition resolve (id : N) (result : JSValue) (c : Correlator) : Correlator :=
  settle id (ResolvedSuccess result) c.

(** Modelled from the spec: [reject(id, error)] (section 4.2), absent from
    the sources. *)
Definition reject (id : N) (e : EngineError) (c : Correlator) : Correlator :=
  settle id (ResolvedError e) c.

(** Modelled from the spec: [expire(id)] (section 4.2), absent from the
    sources: the entry becomes timed-out and the handle is told. *)
Definition expire (id : N) (c : Correlator) : Correlator :=
  settle id TimedOut c.

(** What the handle of [id] has received so far. *)
Definition deliveries_to (id : N) (c : Correlator) : list Resolution :=
  resolution <$> filter (fun pc => correlation_id pc = id) (delivered c).

(** The calls a Correlator receives. *)
Inductive CorrelatorCall :=
| CallRegister (id now : N) (tmo : option N)
| CallResolve (id : N) (result : JSValue)
| CallReject (id : N) (e : EngineError)
| CallExpire (id : N).

(** The Correlator after one call. *)
Definition call (o : CorrelatorCall) (c : Correlator) : Correlator :=
  match o with
  | CallRegister id now tmo => register id now tmo c
  | CallResolve id result => resolve id result c
  | CallReject id e => reject id e c
  | CallExpire id => expire id c
  end.

(** The Correlator after a sequence of calls. *)
Definition calls (os : list CorrelatorCall) (c : Correlator) : Correlator :=
  foldl (fun acc o => call o acc) c os.

(** The resolution a call brings to the handle of [id], if it is one of
    [resolve], [reject] or [expire] on [id]. *)
Definition settles (id : N) (o : CorrelatorCall) : option Resolution :=
  match o with
  | CallRegister _ _ _ => None
  | CallResolve i result => if decide (i = id) then Some (ResolvedSuccess result) else None
  | CallReject i e => if decide (i = id) then Some (ResolvedError e) else None
  | CallExpire i => if decide (i = id) then Some TimedOut else None
  end.

(** Whether a call registers [id]. *)
Definition registers (id : N) (o : CorrelatorCall) : bool :=
  match o with
  | CallRegister i _ _ => bool_decide (i = id)
  | _ => false
  end.

(** *** Messages *)

(** Modelled from the spec: what a command reply reports (sections 4.3
    and 7), success with a result or a device error with its detail. *)
Inductive ReplyStatus :=
| ReplyOk (result : JSValue)
| ReplyError (detail : string).

(** Modelled from the spec: the four kinds of inbound message the Ingress
    Router tells apart (section 4.4). *)
Inductive InboundMessage :=
| FullSnapshot (full : JSValue)
| PartialDelta (partial : JSValue)
| CommandReply (id : N) (status : ReplyStatus)
| Unrecognized.

(** Modelled from the spec: the envelope of an outbound command, embedding
    its correlation id (section 4.3). *)
Record Envelope := {
  envelope_id : N;
  envelope_command : JSValue;
}.

(** Modelled from the spec: the options of [send] (section 4.3). *)
Record SendOptions := {
  opts_timeout : option N;
}.

(** Modelled from the spec: the Transport collaborator's [publish]
    (section 6), seen from the engine: whether publication succeeded, and
    the messages the transport delivered to the engine before [publish]
    returned (a transport, or a test double, that answers in the same
    tick). *)
Record Published := {
  publish_ok : bool;
  same_tick : list InboundMessage;
}.

(** Modelled from the spec: the Transport collaborator (section 6), as far
    as [send] uses it. *)
Definition Transport : Type := Envelope -> Published.

(** *** The engine *)

(** Modelled from the spec: the steps of the engine whose order the
    specification prescribes (sections 4.3 and 5), recorded in the order
    they are taken. *)
Inductive Action :=
| Registered (id : N)
| HandedToTransport (e : Envelope)
| Routed (m : InboundMessage)
| TimerStarted (id : N) (tmo : option N)
| PublishFailed (id : N).

(** Modelled from the spec: the engine instance (sections 2 and 9): its
    store, its Correlator, the source of fresh correlation ids (a counter),
    the armed timeout timers, and the record of its actions. *)
Record Engine := {
  store : Store;
  correlator : Correlator;
  next_id : N;
  timers : gmap N (option N);
  actions : list Action;
}.

(** Modelled from the spec: the engine at start (section 3). *)
Definition empty_engine : Engine :=
  {| store := empty_store; correlator := empty_correlator; next_id := 0%N;
     timers := ∅; actions := [] |}.

Definition with_store (f : Store -> Store) (e : Engine) : Engine :=
  {| store := f (store e); correlator := correlator e; next_id := next_id e;
     timers := timers e; actions := actions e |}.

Definition with_correlator (f : Correlator -> Correlator) (e : Engine) : Engine :=
  {| store := store e; correlator := f (correlator e); next_id := next_id e;
     timers := timers e; actions := actions e |}.

Definition note (a : Action) (e : Engine) : Engine :=
  {| store := store e; correlator := correlator e; next_id := next_id e;
     timers := timers e; actions := actions e ++ [a] |}.

(** Modelled from the spec: the Ingress Router's classification
    (section 4.4), absent from the sources: a full snapshot replaces the
    tree, a partial delta is merged, a command reply goes to the
    Correlator, anything else is dropped with a diagnostic. *)
Definition route (m : InboundMessage) (e : Engine) : Engine :=
  match m with
  | FullSnapshot full => with_store (replaceAll full) e
  | PartialDelta partial => with_store (merge_partial partial) e
  | CommandReply id (ReplyOk result) => with_correlator (resolve id result) e
  | CommandReply id (ReplyError detail) =>
      with_correlator (reject id (DeviceError detail)) e
  | Unrecognized =>
      with_correlator (fun c =>
        {| pending := pending c; delivered := delivered c;
           diagnostics := diagnostics c ++ [DroppedMessage] |}) e
  end.

(** Modelled from the spec: [handle(rawMessage) -> void] (section 4.4),
    called once per inbound delivery. *)
Definition handle (m : InboundMessage) (e : Engine) : Engine :=
  route m (note (Routed m) e).

(** Modelled from the spec: the inbound deliveries of a batch, handled one
    after the other by the single owner of the engine (section 5). *)
Definition handle_all (ms : list InboundMessage) (e : Engine) : Engine :=
  foldl (fun acc m => handle m acc) e ms.

(** Modelled from the spec: the Dispatcher's [send(command, opts)]
    (section 4.3), absent from the sources.  A fresh correlation id is
    taken, the PendingCommand is registered, the envelope is handed to the
    transport (whatever the transport delivers back in the same tick is
    handled there and then), and then either the timeout timer is started
    or, if publication failed, the command is rejected with a transport
    error.  The result is the handle and the engine afterwards. *)
Definition send (transport : Transport) (now : N) (command : JSValue)
    (opts : SendOptions) (e : Engine) : N * Engine :=
  let id := next_id e in
  let envelope := {| envelope_id := id; envelope_command := command |} in
  let e1 :=
    note (Registered id)
      {| store := store e;
         correlator := register id now (opts_timeout opts) (correlator e);
         next_id := N.succ id;
         timers := timers e;
         actions := actions e |} in
  let published := transport envelope in
  let e2 := handle_all (same_tick published) (note (HandedToTransport envelope) e1) in
  let e3 :=
    if publish_ok published then
      note (TimerStarted id (opts_timeout opts))
        {| store := store e2; correlator := correlator e2; next_id := next_id e2;
           timers := <[id := opts_timeout opts]> (timers e2);
           actions := actions e2 |}
    else
      note (PublishFailed id) (with_correlator (reject id TransportError) e2) in
  (id, e3).

(** Modelled from the spec: the expiry of a timeout timer (sections 4.2 and
    4.3): the timer is gone and the command, if still pending, times out. *)
Definition timer_fired (id : N) (e : Engine) : Engine :=
  {| store := store e; correlator := expire id (correlator e);
     next_id := next_id e; timers := delete id (timers e);
     actions := actions e |}.

(** The correlation ids in use are below [n]: the ids of the pending
    commands and of the deliveries already made. *)
Definition ids_below (n : N) (c : Correlator) : Prop :=
  (forall id pc, pending c !! id = Some pc -> (id < n)%N) /\
  (forall pc, pc ∈ delivered c -> (correlation_id pc < n)%N).

(** The counter of the engine is above every correlation id in use, so
    the id it gives out next is fresh. *)
Definition ids_below_counter (e : Engine) : Prop :=
  ids_below (next_id e) (correlator e).

(** The first reply to [id] among messages, as the resolution it brings. *)
Definition reply_resolution (s : ReplyStatus) : Resolution :=
  match s with
  | ReplyOk result => ResolvedSuccess result
  | ReplyError detail => ResolvedError (DeviceError detail)
  end.

Fixpoint first_reply (id : N) (ms : list InboundMessage) : option Resolution :=
  match ms with
  | [] => None
  | CommandReply i s :: ms' =>
      if decide (i = id) then Some (reply_resolution s) else first_reply id ms'
  | _ :: ms' => first_reply id ms'
  end.

(** The calls an engine receives from its callers, from the transport and
    from its timers. *)
Inductive EngineCall :=
| DoSend (transport : Transport) (now : N) (command : JSValue) (opts : SendOptions)
| DoHandle (m : InboundMessage)
| DoTimerFired (id : N).

(** The engine after one call. *)
Definition engine_call (c : EngineCall) (e : Engine) : Engine :=
  match c with
  | DoSend transport now command opts => (send transport now command opts e).2
  | DoHandle m => handle m e
  | DoTimerFired id => timer_fired id e
  end.

(** The engine after a sequence of calls. *)
Definition engine_calls (cs : list EngineCall) (e : Engine) : Engine :=
  foldl (fun acc c => engine_call c acc) e cs.

(** *** The test cases of the specification (section 8) *)

(** Modelled from the spec: the partial updates of "merge never erases",
    [{pins: {1: p}}] and [{location_data: {position: {x, y, z: undefined}}}]. *)
Definition pin_delta (p : Pin) : JSValue :=
  JSObject {[ "pins" := JSObject {[ "1" := Pin_to_js p ]} ]}.

(** The second update of that test: a position with an unknown z. *)
Definition location_delta (px py : number) : JSValue :=
  JSObject {[ "location_data" :=
    JSObject {[ "position" :=
      JSObject {[ "x" := js_number px; "y" := js_number py; "z" := JSUndefined ]} ]} ]}.

(** The store after the first update of that test. *)
Definition store_with_pin (p : Pin) : Store :=
  merge_partial (pin_delta p) empty_store.

(** Modelled from the spec: the transport double of the ordering test,
    which answers every command in the same tick, right after [publish];
    the result it reports is the command itself. *)
Definition echo_transport : Transport := fun envelope =>
  {| publish_ok := true;
     same_tick :=
       [CommandReply (envelope_id envelope) (ReplyOk (envelope_command envelope))] |}.

(** A command to send; the engine does not look into it. *)
Definition move_command : JSValue :=
  JSObject {[ "kind" := js_string "move_absolute" ]}.

(** [send] without a timeout of the caller's: the default policy. *)
Definition no_options : SendOptions := {| opts_timeout := None |}.

(** Modelled from the spec: the duplicate-reply test, one outstanding
    command and a reply to it followed by a second reply, a rejection and
    the expiry of its timer. *)
Definition one_pending : Correlator := register 7 0 (Some 50%N) empty_correlator.

(** The calls of that test, all on the one outstanding command. *)
Definition duplicate_replies : list CorrelatorCall :=
  [ CallResolve 7 (js_string "first"); CallResolve 7 (js_string "second");
    CallReject 7 (DeviceError "late"); CallExpire 7 ].

(** *** Reading the typed state *)

(** Whether a value is an object that has the property [k]. *)
Definition has_property (k : string) (v : JSValue) : bool :=
  match v with
  | JSObject m => bool_decide (is_Some (m !! k))
  | _ => false
  end.

Definition is_string (v : JSValue) : bool :=
  match v with
  | JSPrimitive (PString _) => true
  | _ => false
  end.

Definition is_array_of_strings (v : JSValue) : bool :=
  match v with
  | JSArray l => forallb is_string l
  | _ => false
  end.

(** The two shapes of a manifest. *)
Inductive ManifestShape :=
| LegacyShape
| CurrentShape.

Definition shape (f : Farmware) : ManifestShape :=
  match f with
  | CurrentManifest _ => CurrentShape
  | LegacyManifest _ => LegacyShape
  end.

(** Telling the shape of a manifest object by its discriminant property. *)
Definition shape_of_js (v : JSValue) : ManifestShape :=
  if has_property "farmware_manifest_version" v then CurrentShape else LegacyShape.

(** A legacy manifest whose author added a property named
    [farmware_manifest_version]: the legacy interface declares no such
    property and does not exclude it. *)
Definition legacy_manifest_with_version : LegacyFarmwareManifest :=
  {| lfm_farmware_tools_version := Absent;
     lfm_executable := "python";
     lfm_uuid := "take-photo";
     lfm_args := ["take_photo.py"];
     lfm_name := "take-photo";
     lfm_url := "";
     lfm_path := "";
     lfm_meta :=
       {| meta_min_os_version_major := "6"; meta_description := "";
          meta_language := "python"; meta_version := "1.0.0"; meta_author := "";
          meta_zip := ""; meta_others := ∅ |};
     lfm_config := [];
     lfm_others := {[ "farmware_manifest_version" := js_string "2.0.0" ]} |}.

(** A state tree about which nothing is known yet: every mapping is empty
    and every optional property is left out. *)
Definition unknown_informational_settings : InformationalSettings :=
  {| uptime := Absent; disk_usage := Absent; memory_usage := Absent;
     soc_temp := Absent; wifi_level := Absent; controller_version := Absent;
     firmware_version := Absent; throttled := Absent; private_ip := Absent;
     sync_status := Absent; busy := false; locked := false; commit := "";
     firmware_commit := ""; target := ""; env := ""; node_name := "";
     currently_on_beta := Absent; update_available := Absent |}.

Definition unknown_configuration : Configuration :=
  {| arduino_debug_messages := Absent; auto_sync := Absent; beta_opt_in := Absent;
     disable_factory_reset := Absent; firmware_hardware := Absent;
     firmware_input_log := Absent; firmware_output_log := Absent;
     fw_auto_update := Absent; network_not_found_timer := Absent;
     os_auto_update := Absent; sequence_body_log := Absent;
     sequence_complete_log := Absent; sequence_init_log := Absent |}.

Definition unknown_tree : BotStateTree :=
  {| mcu_params := fun _ => Absent;
     location_data := fun _ _ => None;
     pins := ∅;
     configuration := unknown_configuration;
     informational_settings := unknown_informational_settings;
     user_env := ∅;
     jobs := ∅;
     process_info := {| farmwares := ∅ |};
     gpio_registry := None;
     enigmas := Some ∅ |}.

Definition is_absent {T : Type} (o : Optional T) : bool :=
  match o with
  | Absent => true
  | _ => false
  end.

(** What a declared property contributes to the lookup of its name in an
    object; [rest] is the lookup in the remainder of the object. *)
Definition optional_lookup (o : Optional JSValue) (rest : option JSValue)
    : option JSValue :=
  match o with
  | Absent => rest
  | Undefined => Some JSUndefined
  | Present v => Some v
  end.

(** The property names of [InformationalSettings] declared without [?]. *)
Definition required_informational_settings : list string :=
  ["busy"; "locked"; "commit"; "firmware_commit"; "target"; "env"; "node_name"].

(** The metrics of [InformationalSettings] declared with [?]. *)
Definition optional_metrics : list string :=
  ["uptime"; "disk_usage"; "memory_usage"; "wifi_level"; "sync_status";
   "controller_version"; "firmware_version"].

#[local] Instance LocationName_eq_dec : EqDecision LocationName.
Proof. solve_decision. Defined.

#[local] Instance Xyz_eq_dec : EqDecision Xyz.
Proof. solve_decision. Defined.

(** The state tree [t] with one axis of one coordinate system made
    unknown. *)
Definition forget_axis (n : LocationName) (i : Xyz) (t : BotStateTree)
    : BotStateTree :=
  {| mcu_params := mcu_params t;
     location_data := fun n' i' =>
       if decide (n' = n /\ i' = i) then None else location_data t n' i';
     pins := pins t;
     configuration := configuration t;
     informational_settings := informational_settings t;
     user_env := user_env t;
     jobs := jobs t;
     process_info := process_info t;
     gpio_registry := gpio_registry t;
     enigmas := enigmas t |}.

(** *** The shape of an object *)

(** [Object.keys(v)], as a set. *)
Definition keys (v : JSValue) : gset string :=
  match v with
  | JSObject m => dom m
  | _ => ∅
  end.

(** The names of the listed properties that are not left out. *)
Definition listed_keys (fs : list (string * Optional JSValue)) : list string :=
  omap (fun f => if is_absent f.2 then None else Some f.1) fs.

(** *** [enum Encoder] at run time *)

(** The member names of [Encoder]. *)
Definition Encoder_name (e : Encoder) : string :=
  match e with
  | Encoder_unknown => "unknown"
  | Encoder_quadrature => "quadrature"
  | Encoder_differential => "differential"
  end.

Definition all_Encoder : list Encoder :=
  [Encoder_unknown; Encoder_quadrature; Encoder_differential].

(** The reverse mapping of a numeric enum, [Encoder[z]]: the member whose
    value is [z], if there is one. *)
Definition Encoder_of_value (z : Z) : option Encoder :=
  head (filter (fun e => Encoder_value e = z) all_Encoder).

(** *** Names of microcontroller parameters *)

(** The parameter a string names, if it is one of the literals of
    [McuParamName]. *)
Definition McuParamName_of_str (s : string) : option McuParamName :=
  head (filter (fun n => McuParamName_str n = s) all_McuParamName).

Definition ends_with (suffix s : string) : bool :=
  bool_decide (String.length suffix <= String.length s) &&
  bool_decide (String.substring (String.length s - String.length suffix)
                         (String.length suffix) s = suffix).

(** The name of a per-axis setting: its stem, an underscore, the axis. *)
Definition axis_name (stem : string) (a : Xyz) : string :=
  stem +:+ "_" +:+ Xyz_str a.

(** The stem of a name that ends in ["_x"], ["_y"] or ["_z"]. *)
Definition axis_stem (s : string) : option string :=
  if ends_with "_x" s || ends_with "_y" s || ends_with "_z" s
  then Some (String.substring 0 (String.length s - 2) s)
  else None.

(** *** Vectors *)

(** A [Vector3] as an object. *)
Definition Vector3_to_js (v : Vector3) : JSValue :=
  JSObject (object ((fun i => req (Xyz_str i) (js_number (v i))) <$> all_Xyz)).

(** ** Part III: properties *)

(** *** Induction on values *)

Lemma JSValue_size_field (m : gmap string JSValue) (k : string) (v : JSValue) :
  m !! k = Some v -> JSValue_size v < JSValue_size (JSObject m).
Proof.
  simpl. revert k v.
  induction m as [|i x m Hi Hfirst IH] using map_first_key_ind; intros k v Hk.
  - by rewrite lookup_empty in Hk.
  - rewrite map_fold_insert_first_key by done.
    destruct (decide (i = k)) as [->|Hne].
    + rewrite lookup_insert_eq in Hk. injection Hk as ->. lia.
    + rewrite lookup_insert_ne in Hk by done. specialize (IH _ _ Hk). lia.
Qed.

Lemma JSValue_size_elem (l : list JSValue) (v : JSValue) :
  v ∈ l -> JSValue_size v < JSValue_size (JSArray l).
Proof.
  simpl. induction 1 as [|? ? ? _ IH]; simpl; lia.
Qed.

(** Structural induction, with the hypothesis for every element of an
    array and every property of an object. *)
Lemma JSValue_ind (P : JSValue -> Prop) :
  P JSUndefined ->
  (forall p, P (JSPrimitive p)) ->
  (forall l, Forall P l -> P (JSArray l)) ->
  (forall m, map_Forall (fun _ => P) m -> P (JSObject m)) ->
  forall v, P v.
Proof.
  intros HU HP HA HO v.
  remember (JSValue_size v) as n eqn:Hn. revert v Hn.
  induction n as [n IH] using lt_wf_ind. intros v ->.
  destruct v as [| p | l | m].
  - exact HU.
  - apply HP.
  - apply HA, Forall_forall. intros x Hx.
    eapply IH; [|reflexivity]. by apply JSValue_size_elem.
  - apply HO. intros k x Hk.
    eapply IH; [|reflexivity]. by eapply JSValue_size_field.
Qed.

(** *** The merge *)

Lemma merge_value_undefined_r (p : JSValue) : merge_value p JSUndefined = p.
Proof. by destruct p. Qed.

Lemma merge_value_object (pm sm : gmap string JSValue) :
  merge_value (JSObject pm) (JSObject sm) = JSObject (merge merge_field pm sm).
Proof. reflexivity. Qed.

Lemma lookup_merge_field (pm sm : gmap string JSValue) (k : string) :
  merge merge_field pm sm !! k = merge_field (pm !! k) (sm !! k).
Proof. rewrite lookup_merge. by destruct (pm !! k), (sm !! k). Qed.

(** Property by property, the merged object reads as the merge of what the
    two objects read. *)
Lemma field_merge (pm sm : gmap string JSValue) (k : string) :
  field (merge merge_field pm sm) k = merge_value (field pm k) (field sm k).
Proof.
  unfold field. rewrite lookup_merge_field.
  destruct (pm !! k) as [[]|]; simpl; try done.
Qed.

Lemma merge_value_not_object (p s : JSValue) :
  (forall sm, s <> JSObject sm) -> p <> JSUndefined -> merge_value p s = p.
Proof.
  intros Hs Hp. destruct p as [| | |pm]; try done.
  destruct s; try done. by edestruct Hs.
Qed.

Lemma get_path_undefined (ks : list string) : get_path ks JSUndefined = JSUndefined.
Proof. by destruct ks. Qed.

Lemma get_path_cons_object (k : string) (ks : list string)
    (m : gmap string JSValue) :
  get_path (k :: ks) (JSObject m) = get_path ks (field m k).
Proof. reflexivity. Qed.

(** Where a value says nothing, there is nothing to read. *)
Lemma absent_in_get_path (ks : list string) (p : JSValue) :
  absent_in ks p = true -> get_path ks p = JSUndefined.
Proof.
  revert p. induction ks as [|k ks IH]; intros p Hp.
  - by destruct p.
  - destruct p as [| | |m]; try done. simpl in *. by apply IH.
Qed.

Lemma merge_value_frame (ks : list string) (p s : JSValue) :
  absent_in ks p = true -> get_path ks (merge_value p s) = get_path ks s.
Proof.
  revert p s. induction ks as [|k ks IH]; intros p s Hp.
  - by destruct p.
  - destruct p as [| | |pm]; try done.
    destruct s as [| | |sm].
    + rewrite merge_value_undefined_r, get_path_undefined.
      by apply absent_in_get_path.
    + simpl in *. by apply absent_in_get_path.
    + simpl in *. by apply absent_in_get_path.
    + rewrite merge_value_object. simpl get_path. rewrite field_merge.
      by apply IH.
Qed.

Lemma merge_value_self (p : JSValue) : merge_value p p = p.
Proof.
  induction p as [| | |pm IH] using JSValue_ind; try done.
  rewrite merge_value_object. f_equal. apply map_eq. intros k.
  rewrite lookup_merge_field. destruct (pm !! k) as [pv|] eqn:Hk; [|done].
  simpl. rewrite (IH k pv Hk). by destruct pv.
Qed.

Lemma merge_value_idempotent (p s : JSValue) :
  merge_value p (merge_value p s) = merge_value p s.
Proof.
  revert s. induction p as [| | |pm IH] using JSValue_ind; intros s; try done.
  destruct s as [| | |sm]; try apply merge_value_self.
  rewrite !merge_value_object. f_equal. apply map_eq. intros k.
  rewrite !lookup_merge_field. destruct (pm !! k) as [pv|] eqn:Hk; [|done].
  destruct pv as [| q | l | qm] eqn:Hpv; try done.
  simpl. f_equal. rewrite <- Hpv. subst pv. apply (IH k _ Hk).
Qed.

(** A partial value that respects the shape of the tree never makes a
    known value unknown, whatever it overwrites. *)
Lemma merge_value_keeps_known (ks : list string) (p s : JSValue) :
  fits p s ->
  get_path ks s <> JSUndefined ->
  get_path ks (merge_value p s) <> JSUndefined.
Proof.
  revert p s. induction ks as [|k ks IH]; intros p s Hfits Hknown.
  - simpl in *. destruct p as [| | |pm]; try done. by destruct s.
  - destruct s as [| | |sm]; try done.
    inversion Hfits as [s' | p' s' Hno | pm sm' Hfields]; subst.
    + done.
    + by edestruct Hno.
    + rewrite merge_value_object, get_path_cons_object, field_merge.
      apply IH; [|done].
      unfold field at 1. destruct (pm !! k) as [pv|] eqn:Hk; simpl.
      * by apply Hfields.
      * constructor.
Qed.

(** *** The Correlator *)

Section correlator_calls.
Implicit Types (c : Correlator) (id j : N) (r : Resolution).

Lemma settle_pending c id r pc :
  pending c !! id = Some pc ->
  pending (settle id r c) = delete id (pending c) /\
  delivered (settle id r c) =
    delivered c ++ [ {| correlation_id := id; submitted_at := submitted_at pc;
                        timeout := timeout pc; resolution := r |} ] /\
  diagnostics (settle id r c) = diagnostics c.
Proof. intros H. unfold settle. by rewrite H. Qed.

Lemma settle_not_pending c id r :
  pending c !! id = None ->
  pending (settle id r c) = pending c /\
  delivered (settle id r c) = delivered c /\
  diagnostics (settle id r c) = diagnostics c ++ [NotPending id].
Proof. intros H. unfold settle. by rewrite H. Qed.

Lemma deliveries_to_app id c (l : list PendingCommand) :
  resolution <$> filter (fun pc => correlation_id pc = id) (delivered c ++ l) =
  deliveries_to id c ++
    (resolution <$> filter (fun pc => correlation_id pc = id) l).
Proof. unfold deliveries_to. by rewrite filter_app, fmap_app. Qed.

Lemma settle_deliveries_pending c id r :
  is_Some (pending c !! id) ->
  deliveries_to id (settle id r c) = deliveries_to id c ++ [r] /\
  pending (settle id r c) !! id = None.
Proof.
  intros [pc H]. destruct (settle_pending c id r pc H) as (Hp & Hd & _).
  split.
  - unfold deliveries_to at 1. rewrite Hd, deliveries_to_app.
    f_equal. rewrite filter_cons_True by done. done.
  - rewrite Hp. apply lookup_delete_eq.
Qed.

Lemma settle_deliveries_not_pending c id r :
  pending c !! id = None ->
  deliveries_to id (settle id r c) = deliveries_to id c /\
  pending (settle id r c) !! id = None.
Proof.
  intros H. destruct (settle_not_pending c id r H) as (Hp & Hd & _).
  unfold deliveries_to. by rewrite Hp, Hd.
Qed.

Lemma settle_other c id j r :
  j <> id ->
  deliveries_to id (settle j r c) = deliveries_to id c /\
  pending (settle j r c) !! id = pending c !! id.
Proof.
  intros Hne. unfold settle. destruct (pending c !! j) as [pc|] eqn:Hj; simpl.
  - split.
    + unfold deliveries_to at 1. simpl. rewrite deliveries_to_app.
      rewrite filter_cons_False by done. simpl. apply app_nil_r.
    + by apply lookup_delete_ne.
  - done.
Qed.

Lemma register_other c id j now tmo :
  j <> id ->
  deliveries_to id (register j now tmo c) = deliveries_to id c /\
  pending (register j now tmo c) !! id = pending c !! id.
Proof. intros Hne. split; [done|]. by apply lookup_insert_ne. Qed.

(** [settle j] seen from the handle of [id]. *)
Lemma settle_deliveries c id j r :
  deliveries_to id (settle j r c) =
    deliveries_to id c ++
      match pending c !! id with
      | Some _ => option_list (if decide (j = id) then Some r else None)
      | None => []
      end /\
  pending (settle j r c) !! id =
    if decide (j = id) then None else pending c !! id.
Proof.
  destruct (decide (j = id)) as [->|Hne].
  - destruct (pending c !! id) as [pc|] eqn:Hp.
    + apply settle_deliveries_pending. by rewrite Hp.
    + rewrite app_nil_r. by apply settle_deliveries_not_pending.
  - destruct (settle_other c id j r Hne) as [-> ->].
    split; [|done]. destruct (pending c !! id); simpl; by rewrite app_nil_r.
Qed.

(** One call that does not register [id]: what reaches the handle of [id],
    and whether [id] stays pending. *)
Lemma call_deliveries c id o :
  registers id o = false ->
  deliveries_to id (call o c) =
    deliveries_to id c ++
      match pending c !! id with
      | Some _ => option_list (settles id o)
      | None => []
      end /\
  pending (call o c) !! id =
    match settles id o with
    | Some _ => None
    | None => pending c !! id
    end.
Proof.
  intros Hreg.
  destruct o as [j now tmo | j result | j e | j]; unfold call, settles;
    unfold registers in Hreg.
  - apply bool_decide_eq_false in Hreg.
    destruct (register_other c id j now tmo Hreg) as [-> ->].
    split; [|done]. destruct (pending c !! id); simpl; by rewrite app_nil_r.
  - destruct (settle_deliveries c id j (ResolvedSuccess result)) as [H1 H2].
    unfold resolve. rewrite H1, H2. by destruct (decide (j = id)).
  - destruct (settle_deliveries c id j (ResolvedError e)) as [H1 H2].
    unfold reject. rewrite H1, H2. by destruct (decide (j = id)).
  - destruct (settle_deliveries c id j TimedOut) as [H1 H2].
    unfold expire. rewrite H1, H2. by destruct (decide (j = id)).
Qed.

(** Any sequence of calls that does not register [id] again. *)
Lemma calls_deliveries (os : list CorrelatorCall) c id :
  Forall (fun o => registers id o = false) os ->
  deliveries_to id (calls os c) =
    deliveries_to id c ++
      match pending c !! id with
      | Some _ => option_list (head (omap (settles id) os))
      | None => []
      end.
Proof.
  intros Hos. revert c. induction Hos as [|o os Ho _ IH]; intros c.
  - simpl. destruct (pending c !! id); by rewrite app_nil_r.
  - change (calls (o :: os) c) with (calls os (call o c)).
    rewrite IH. destruct (call_deliveries c id o Ho) as [-> ->].
    rewrite <- app_assoc. f_equal. simpl omap.
    destruct (settles id o) as [r|]; simpl.
    + destruct (pending c !! id); simpl; done.
    + destruct (pending c !! id); simpl; done.
Qed.

End correlator_calls.

(** *** The Ingress Router and the Dispatcher *)

Section engine.
Implicit Types (e : Engine) (m : InboundMessage) (ms : list InboundMessage).

Lemma handle_all_cons m ms e : handle_all (m :: ms) e = handle_all ms (handle m e).
Proof. reflexivity. Qed.

Lemma actions_handle m e : actions (handle m e) = actions e ++ [Routed m].
Proof. by destruct m as [| | ? []|]. Qed.

Lemma actions_handle_all ms e :
  actions (handle_all ms e) = actions e ++ (Routed <$> ms).
Proof.
  revert e. induction ms as [|m ms IH]; intros e.
  - simpl. by rewrite app_nil_r.
  - rewrite handle_all_cons, IH, actions_handle, <- app_assoc. done.
Qed.

Lemma next_id_handle m e : next_id (handle m e) = next_id e.
Proof. by destruct m as [| | ? []|]. Qed.

Lemma next_id_handle_all ms e : next_id (handle_all ms e) = next_id e.
Proof.
  revert e. induction ms as [|m ms IH]; intros e; [done|].
  by rewrite handle_all_cons, IH, next_id_handle.
Qed.

(** Handling one message, seen from the handle of [id]. *)
Lemma handle_deliveries m e (id : N) :
  deliveries_to id (correlator (handle m e)) =
    deliveries_to id (correlator e) ++
      match pending (correlator e) !! id with
      | Some _ => option_list (first_reply id [m])
      | None => []
      end /\
  pending (correlator (handle m e)) !! id =
    match first_reply id [m] with
    | Some _ => None
    | None => pending (correlator e) !! id
    end.
Proof.
  destruct m as [full | partial | j [result|detail] |]; simpl.
  - split; [|done]. destruct (pending (correlator e) !! id); by rewrite app_nil_r.
  - split; [|done]. destruct (pending (correlator e) !! id); by rewrite app_nil_r.
  - destruct (settle_deliveries (correlator e) id j (ResolvedSuccess result))
      as [H1 H2].
    unfold resolve. rewrite H1, H2. by destruct (decide (j = id)).
  - destruct (settle_deliveries (correlator e) id j (ResolvedError (DeviceError detail)))
      as [H1 H2].
    unfold reject. rewrite H1, H2. by destruct (decide (j = id)).
  - split; [|done]. destruct (pending (correlator e) !! id); by rewrite app_nil_r.
Qed.

Lemma first_reply_cons (id : N) m ms :
  first_reply id (m :: ms) =
    match first_reply id [m] with
    | Some r => Some r
    | None => first_reply id ms
    end.
Proof.
  destruct m as [| | j s|]; simpl; try done. by destruct (decide (j = id)).
Qed.

(** Handling a batch of messages, seen from the handle of [id]: the first
    reply to [id] is delivered if [id] is pending, and nothing else is. *)
Lemma handle_all_deliveries ms e (id : N) :
  deliveries_to id (correlator (handle_all ms e)) =
    deliveries_to id (correlator e) ++
      match pending (correlator e) !! id with
      | Some _ => option_list (first_reply id ms)
      | None => []
      end /\
  pending (correlator (handle_all ms e)) !! id =
    match first_reply id ms with
    | Some _ => None
    | None => pending (correlator e) !! id
    end.
Proof.
  revert e. induction ms as [|m ms IH]; intros e.
  - simpl. split; [|done].
    destruct (pending (correlator e) !! id); by rewrite app_nil_r.
  - rewrite handle_all_cons, first_reply_cons.
    destruct (IH (handle m e)) as [-> ->].
    destruct (handle_deliveries m e id) as [-> ->].
    rewrite <- app_assoc.
    destruct (first_reply id [m]) as [r|]; simpl.
    + destruct (pending (correlator e) !! id); simpl;
        destruct (first_reply id ms); done.
    + destruct (pending (correlator e) !! id); simpl; done.
Qed.

End engine.

(** *** Fresh correlation ids *)

Section fresh_ids.
Implicit Types (c : Correlator) (e : Engine) (n id : N).

Lemma ids_below_mono n n' c : (n <= n')%N -> ids_below n c -> ids_below n' c.
Proof.
  intros Hle [Hp Hd]. split.
  - intros id pc H. specialize (Hp id pc H). lia.
  - intros pc H. specialize (Hd pc H). lia.
Qed.

Lemma ids_below_settle n c id (r : Resolution) :
  ids_below n c -> ids_below n (settle id r c).
Proof.
  intros [Hp Hd]. unfold settle.
  destruct (pending c !! id) as [pc|] eqn:Hid; split; simpl; try done.
  - intros j pc' Hj. apply lookup_delete_Some in Hj as [_ Hj]. eauto.
  - intros pc' [H| ->%list_elem_of_singleton]%elem_of_app; [eauto|].
    simpl. eauto.
Qed.

Lemma ids_below_register n c id now (tmo : option N) :
  (id < n)%N -> ids_below n c -> ids_below n (register id now tmo c).
Proof.
  intros Hlt [Hp Hd]. split; simpl; [|done].
  intros j pc [[<- _]|[_ Hj]]%lookup_insert_Some; eauto.
Qed.

Lemma ids_below_deliveries n c id :
  ids_below n c -> (n <= id)%N -> deliveries_to id c = [].
Proof.
  intros [_ Hd] Hle. unfold deliveries_to.
  replace (filter _ (delivered c)) with (@nil PendingCommand); [done|].
  symmetry. induction (delivered c) as [|pc l IH]; [done|].
  rewrite filter_cons_False.
  - apply IH. intros pc' H. apply Hd. by right.
  - intros Heq. assert (correlation_id pc < n)%N by (apply Hd; by left). lia.
Qed.

Lemma ids_below_counter_empty : ids_below_counter empty_engine.
Proof. split; simpl; intros *; [by rewrite lookup_empty | by intros ?%elem_of_nil]. Qed.

Lemma ids_below_counter_handle (m : InboundMessage) e :
  ids_below_counter e -> ids_below_counter (handle m e).
Proof.
  unfold ids_below_counter. rewrite next_id_handle.
  destruct m as [| | j [result|detail] |]; simpl; try done.
  - apply ids_below_settle.
  - apply ids_below_settle.
Qed.

Lemma ids_below_counter_handle_all (ms : list InboundMessage) e :
  ids_below_counter e -> ids_below_counter (handle_all ms e).
Proof.
  revert e. induction ms as [|m ms IH]; intros e He; [done|].
  rewrite handle_all_cons. by apply IH, ids_below_counter_handle.
Qed.

Lemma ids_below_counter_timer_fired id e :
  ids_below_counter e -> ids_below_counter (timer_fired id e).
Proof. apply ids_below_settle. Qed.

Lemma ids_below_counter_send (transport : Transport) (now : N)
    (command : JSValue) (opts : SendOptions) e :
  ids_below_counter e ->
  ids_below_counter (send transport now command opts e).2.
Proof.
  intros He. unfold send. cbn [snd].
  set (e1 := note (Registered (next_id e)) _).
  assert (H1 : ids_below_counter e1).
  { unfold ids_below_counter. simpl. apply ids_below_register; [lia|].
    eapply ids_below_mono; [|exact He]. lia. }
  set (e2 := handle_all _ _).
  assert (H2 : ids_below_counter e2) by by apply ids_below_counter_handle_all.
  destruct (publish_ok _); simpl; [exact H2|].
  by apply ids_below_settle.
Qed.

(** Every state the engine reaches from its start has its counter above
    the ids in use. *)
Lemma ids_below_counter_reachable (cs : list EngineCall) :
  ids_below_counter (engine_calls cs empty_engine).
Proof.
  unfold engine_calls. generalize ids_below_counter_empty.
  generalize empty_engine. induction cs as [|c cs IH]; intros e He; [done|].
  simpl. apply IH. destruct c; simpl.
  - by apply ids_below_counter_send.
  - by apply ids_below_counter_handle.
  - by apply ids_below_counter_timer_fired.
Qed.

End fresh_ids.

(** *** Objects and their properties *)

Section objects.
Implicit Types (k : string) (o : Optional JSValue)
  (fs : list (string * Optional JSValue)).

Lemma lookup_object_cons k k' o fs :
  object ((k', o) :: fs) !! k =
    if decide (k = k') then optional_lookup o (object fs !! k)
    else object fs !! k.
Proof.
  unfold object at 1. simpl. fold (object fs).
  destruct o; simpl; case_decide; subst; try done.
  - by rewrite lookup_insert_eq.
  - by rewrite lookup_insert_ne.
  - by rewrite lookup_insert_eq.
  - by rewrite lookup_insert_ne.
Qed.

Lemma lookup_object_nil k : object [] !! k = None.
Proof. apply lookup_empty. Qed.

Lemma lookup_object_not_listed k fs : k ∉ fs.*1 -> object fs !! k = None.
Proof.
  induction fs as [|[k' o] fs IH]; intros Hk; [apply lookup_empty|].
  rewrite lookup_object_cons. apply not_elem_of_cons in Hk as [Hne Hk].
  rewrite decide_False by done. by apply IH.
Qed.

(** The object built from an enumeration of distinct property names. *)
Lemma lookup_object_fmap {A : Type} (key : A -> string)
    (val : A -> Optional JSValue) (l : list A) (a : A) :
  NoDup (key <$> l) -> a ∈ l ->
  object ((fun x => (key x, val x)) <$> l) !! key a = optional_lookup (val a) None.
Proof.
  induction l as [|b l IH]; intros Hnd Ha; [by apply elem_of_nil in Ha|].
  rewrite fmap_cons in Hnd. apply NoDup_cons in Hnd as [Hb Hnd].
  rewrite fmap_cons, lookup_object_cons.
  apply elem_of_cons in Ha as [->|Ha].
  - rewrite decide_True by done. f_equal.
    apply lookup_object_not_listed.
    by rewrite <- list_fmap_compose.
  - rewrite decide_False; [by apply IH|].
    intros Heq. apply Hb. rewrite <- Heq. by apply list_elem_of_fmap_2.
Qed.

Lemma lookup_object_fmap_other {A : Type} (key : A -> string)
    (val : A -> Optional JSValue) (l : list A) k :
  k ∉ key <$> l ->
  object ((fun x => (key x, val x)) <$> l) !! k = None.
Proof.
  intros Hk. apply lookup_object_not_listed. by rewrite <- list_fmap_compose.
Qed.

Lemma lookup_open_object_declared k fs (others : gmap string JSValue) :
  k ∈ fs.*1 -> open_object fs others !! k = object fs !! k.
Proof.
  intros Hk. unfold open_object. apply lookup_union_l.
  apply map_lookup_filter_None_2. right. intros x _ Hnot. by apply Hnot.
Qed.

Lemma lookup_open_object_other k fs (others : gmap string JSValue) :
  k ∉ fs.*1 -> open_object fs others !! k = others !! k.
Proof.
  intros Hk. unfold open_object.
  rewrite lookup_union_r by by apply lookup_object_not_listed.
  rewrite map_lookup_filter. destruct (others !! k) as [x|]; [|done].
  simpl. by rewrite option_guard_True.
Qed.

End objects.

(** Looking a literal property name up in an object given by the list of
    its properties. *)
Ltac object_lookup :=
  unfold req, opt;
  repeat (rewrite lookup_object_cons;
          first [rewrite decide_True by done | rewrite decide_False by done]);
  rewrite ?lookup_object_nil; simpl optional_lookup.

(** A literal name is, or is not, among the declared property names. *)
Ltac declared_name :=
  unfold req, opt; cbn [fmap list_fmap fst];
  apply (bool_decide_unpack _); vm_compute; reflexivity.

(** Looking a declared property name up in an object that may carry
    further properties. *)
Ltac declared_lookup :=
  rewrite lookup_open_object_declared by declared_name; object_lookup.

Section typed_state.
Implicit Types (t : BotStateTree) (k : string).

Lemma McuParamName_str_NoDup : NoDup (McuParamName_str <$> all_McuParamName).
Proof. apply (bool_decide_unpack _). by vm_compute. Qed.

Lemma all_McuParamName_complete (n : McuParamName) : n ∈ all_McuParamName.
Proof. destruct n; unfold all_McuParamName; repeat constructor. Qed.

Lemma ConfigurationName_str_NoDup :
  NoDup (ConfigurationName_str <$> all_ConfigurationName).
Proof. apply (bool_decide_unpack _). by vm_compute. Qed.

Lemma all_ConfigurationName_complete (n : ConfigurationName) :
  n ∈ all_ConfigurationName.
Proof. destruct n; unfold all_ConfigurationName; repeat constructor. Qed.

Lemma field_optional_lookup (o : Optional JSValue) :
  default JSUndefined (optional_lookup o None) = js_or_undefined id (read o).
Proof. by destruct o. Qed.

Lemma field_dict_to_js {T : Type} (f : T -> JSValue) (d : Dictionary (option T)) k :
  get_path [k] (dict_to_js f d) = js_or_undefined f (dict_read d k).
Proof.
  simpl. unfold field, dict_read. rewrite lookup_fmap.
  by destruct (d !! k) as [[]|].
Qed.

Lemma field_Some (m : gmap string JSValue) k (v : JSValue) :
  m !! k = Some v -> field m k = v.
Proof. unfold field. by intros ->. Qed.

Lemma field_None (m : gmap string JSValue) k :
  m !! k = None -> field m k = JSUndefined.
Proof. unfold field. by intros ->. Qed.

Lemma McuParams_field (p : McuParams) (n : McuParamName) :
  get_path [McuParamName_str n] (McuParams_to_js p) =
  js_or_undefined js_number (read (p n)).
Proof.
  unfold McuParams_to_js, opt. rewrite get_path_cons_object. unfold field.
  rewrite (lookup_object_fmap McuParamName_str
             (fun n => optional_map js_number (p n)));
    [| apply McuParamName_str_NoDup | apply all_McuParamName_complete].
  by destruct (p n).
Qed.

Lemma Configuration_to_js_field (c : Configuration) (n : ConfigurationName) :
  get_path [ConfigurationName_str n] (Configuration_to_js c) =
  js_or_undefined id (read (Configuration_field c n)).
Proof.
  unfold Configuration_to_js. rewrite get_path_cons_object. unfold field.
  rewrite (lookup_object_fmap ConfigurationName_str (Configuration_field c));
    [| apply ConfigurationName_str_NoDup | apply all_ConfigurationName_complete].
  apply field_optional_lookup.
Qed.

(** Going down to a top-level property of the state tree. *)
Ltac state_tree_field :=
  unfold BotStateTree_to_js; rewrite get_path_cons_object;
  erewrite field_Some; [| object_lookup; reflexivity].

Lemma get_mcu_param t (n : McuParamName) :
  get_path ["mcu_params"; McuParamName_str n] (BotStateTree_to_js t) =
  js_or_undefined js_number (read (mcu_params t n)).
Proof. state_tree_field. apply McuParams_field. Qed.

Lemma get_configuration t (n : ConfigurationName) :
  get_path ["configuration"; ConfigurationName_str n] (BotStateTree_to_js t) =
  js_or_undefined id (read (Configuration_field (configuration t) n)).
Proof. state_tree_field. apply Configuration_to_js_field. Qed.

Lemma get_pin t k :
  get_path ["pins"; k] (BotStateTree_to_js t) =
  js_or_undefined Pin_to_js (dict_read (pins t) k).
Proof. state_tree_field. apply field_dict_to_js. Qed.

Lemma get_job t k :
  get_path ["jobs"; k] (BotStateTree_to_js t) =
  js_or_undefined JobProgress_to_js (dict_read (jobs t) k).
Proof. state_tree_field. apply field_dict_to_js. Qed.

Lemma get_user_env t k :
  get_path ["user_env"; k] (BotStateTree_to_js t) =
  js_or_undefined js_string (dict_read (user_env t) k).
Proof. state_tree_field. apply field_dict_to_js. Qed.

Lemma get_enigma t k :
  get_path ["enigmas"; k] (BotStateTree_to_js t) =
  js_or_undefined Enigma_to_js (enigmas t ≫= fun d => dict_read d k).
Proof.
  state_tree_field.
  destruct (enigmas t) as [d|]; [apply field_dict_to_js | done].
Qed.

Lemma get_gpio_registry t (pin : string) :
  get_path ["gpio_registry"; pin] (BotStateTree_to_js t) =
  js_or_undefined js_string (gpio_registry t ≫= fun g => dict_read g pin).
Proof.
  state_tree_field.
  destruct (gpio_registry t) as [g|]; [apply field_dict_to_js | done].
Qed.

End typed_state.

(** *** The test cases of the specification *)

(** Merging [{pins: {1: {mode, value}}}] and then [{location_data: ...}]
    leaves pin 1 as it was. *)
Example merge_then_location_keeps_pin (p : Pin) (px py : number) :
  get_path ["pins"; "1"]
    (snapshot (merge_partial (location_delta px py) (store_with_pin p))) =
  Pin_to_js p.
Proof. vm_compute. reflexivity. Qed.

Example merge_then_location_sets_position (p : Pin) (px py : number) :
  get_path ["location_data"; "position"; "x"]
    (snapshot (merge_partial (location_delta px py) (store_with_pin p))) =
  js_number px.
Proof. vm_compute. reflexivity. Qed.

(** The echoing transport double: the reply resolves the command, and the
    Correlator holds no entry for it afterwards. *)
Example echo_resolves_the_command :
  let e' := (send echo_transport 0 move_command no_options empty_engine).2 in
  delivered (correlator e') =
    [ {| correlation_id := 0; submitted_at := 0; timeout := None;
         resolution := ResolvedSuccess move_command |} ] /\
  pending (correlator e') = ∅ /\
  diagnostics (correlator e') = [].
Proof. vm_compute. done. Qed.

(** ** The properties of the engine *)

(** C1. Merging a partial update into the state tree leaves unchanged
    every field the update says nothing about: wherever the update leaves a
    property out or holds [undefined] for it (at any depth, below objects
    present on both sides), reading that place after the merge gives what
    it gave before.  In particular a value that was known there is still
    known: a merge never turns a known value into an unknown one. *)
Theorem merge_leaves_absent_fields_unchanged
    (st : Store) (partial : JSValue) (ks : list string) :
  absent_in ks partial = true ->
  get_path ks (snapshot (merge_partial partial st)) = get_path ks (snapshot st) /\
  (get_path ks (snapshot st) <> JSUndefined ->
   get_path ks (snapshot (merge_partial partial st)) <> JSUndefined).
Proof.
  intros Habsent.
  assert (Heq : get_path ks (snapshot (merge_partial partial st)) =
                get_path ks (snapshot st)).
  { unfold snapshot, merge_partial. simpl. by apply merge_value_frame. }
  split; [exact Heq|]. by rewrite Heq.
Qed.

(** C2. Merging is idempotent: applying the same partial update twice in a
    row gives the same state tree as applying it once, in the store and
    through the Ingress Router alike (a partial delta delivered twice). *)
Theorem merge_twice_is_merge_once (partial : JSValue) (st : Store) (e : Engine) :
  snapshot (merge_partial partial (merge_partial partial st)) =
    snapshot (merge_partial partial st) /\
  snapshot (store (handle (PartialDelta partial) (handle (PartialDelta partial) e))) =
    snapshot (store (handle (PartialDelta partial) e)).
Proof.
  split; unfold snapshot; simpl; apply merge_value_idempotent.
Qed.

(** C3. [send] registers the PendingCommand and only then hands the
    envelope to the transport: the record of actions shows the registration
    of the fresh id right before the publication, and a reply to that id
    that the transport delivers in the same tick, before [publish] returns,
    finds the PendingCommand and is what the handle receives, once.  With
    no such reply the handle has received nothing when [send] returns,
    unless publication failed, which rejects it with a transport error. *)
Theorem send_registers_before_publishing
    (transport : Transport) (now : N) (command : JSValue) (opts : SendOptions)
    (e : Engine) :
  ids_below_counter e ->
  let id := next_id e in
  let envelope := {| envelope_id := id; envelope_command := command |} in
  let published := transport envelope in
  let e' := (send transport now command opts e).2 in
  (send transport now command opts e).1 = id /\
  actions e' =
    actions e ++
      Registered id :: HandedToTransport envelope ::
      (Routed <$> same_tick published) ++
      [if publish_ok published then TimerStarted id (opts_timeout opts)
       else PublishFailed id] /\
  deliveries_to id (correlator e') =
    match first_reply id (same_tick published) with
    | Some r => [r]
    | None => if publish_ok published then [] else [ResolvedError TransportError]
    end.
Proof.
  intros He id envelope published e'. split; [done|].
  subst e'. unfold send. cbn [snd]. fold id. fold envelope. fold published.
  set (e1 := note (Registered id) _).
  set (e2 := handle_all _ (note (HandedToTransport envelope) e1)).
  assert (Hpending : is_Some (pending (correlator (note (HandedToTransport envelope) e1)) !! id)).
  { simpl. rewrite lookup_insert_eq. by eexists. }
  assert (Hnone : deliveries_to id (correlator (note (HandedToTransport envelope) e1)) = []).
  { change (deliveries_to id (correlator e) = []).
    apply (ids_below_deliveries (next_id e)); [exact He|]. unfold id. lia. }
  assert (Hactions : actions e2 =
    actions e ++ Registered id :: HandedToTransport envelope ::
      (Routed <$> same_tick published)).
  { unfold e2. rewrite actions_handle_all. simpl. by rewrite <- !app_assoc. }
  destruct (handle_all_deliveries (same_tick published)
              (note (HandedToTransport envelope) e1) id) as [Hd Hp].
  fold e2 in Hd, Hp. rewrite Hnone in Hd. destruct Hpending as [pc Hpc].
  rewrite Hpc in Hd, Hp. simpl in Hd.
  split.
  - destruct (publish_ok published); simpl; rewrite Hactions;
      rewrite <- !app_assoc; simpl; by rewrite <- ?app_assoc.
  - destruct (publish_ok published); simpl.
    + rewrite Hd. by destruct (first_reply id (same_tick published)).
    + destruct (settle_deliveries (correlator e2) id id (ResolvedError TransportError))
        as [Hs _].
      unfold reject. rewrite Hs, Hp, Hd, decide_True by done.
      by destruct (first_reply id (same_tick published)).
Qed.

(** C4. [resolve] and [reject] deliver to the handle exactly once.  Over
    any sequence of calls to the Correlator that does not register [id]
    anew, the handle of [id] receives, if [id] was pending, the outcome of
    the first call that resolves, rejects or expires [id] and nothing from
    the later ones, and nothing at all if [id] was not pending (unknown, or
    resolved already).  A single [resolve] or [reject] of an id that is not
    pending changes neither the pending commands nor the deliveries: it
    returns normally and only adds a log entry. *)
Theorem resolve_and_reject_deliver_once
    (c : Correlator) (id : N) (os : list CorrelatorCall) :
  Forall (fun o => registers id o = false) os ->
  deliveries_to id (calls os c) =
    deliveries_to id c ++
      match pending c !! id with
      | Some _ => option_list (head (omap (settles id) os))
      | None => []
      end /\
  match pending c !! id with
  | Some pc =>
      forall result e,
        deliveries_to id (resolve id result c) =
          deliveries_to id c ++ [ResolvedSuccess result] /\
        deliveries_to id (reject id e c) =
          deliveries_to id c ++ [ResolvedError e] /\
        pending (resolve id result c) !! id = None /\
        pending (reject id e c) !! id = None
  | None =>
      forall result e,
        pending (resolve id result c) = pending c /\
        delivered (resolve id result c) = delivered c /\
        diagnostics (resolve id result c) = diagnostics c ++ [NotPending id] /\
        pending (reject id e c) = pending c /\
        delivered (reject id e c) = delivered c /\
        diagnostics (reject id e c) = diagnostics c ++ [NotPending id]
  end.
Proof.
  intros Hos. split; [by apply calls_deliveries|].
  destruct (pending c !! id) as [pc|] eqn:Hid.
  - intros result e. unfold resolve, reject.
    assert (Hsome : is_Some (pending c !! id)) by by rewrite Hid.
    destruct (settle_deliveries_pending c id (ResolvedSuccess result) Hsome).
    destruct (settle_deliveries_pending c id (ResolvedError e) Hsome).
    done.
  - intros result e. unfold resolve, reject.
    destruct (settle_not_pending c id (ResolvedSuccess result) Hid) as (?&?&?).
    destruct (settle_not_pending c id (ResolvedError e) Hid) as (?&?&?).
    done.
Qed.

(** ** The properties of the data model *)

(** C5. The mappings of the state tree are sparse.  For each of them
    (microcontroller parameters, pin table, configuration, jobs,
    environment variables, alerts, and the pin-name registry, by property
    name) and for every key: reading the entry out
    of the state tree gives the known value, and [undefined] when the key
    is left out or holds [undefined], never a number or a boolean put in
    its place; both ways of being unknown are allowed by the type of the
    mapping; and in the tree about which nothing is known every entry of
    every mapping reads [undefined]. *)
Theorem state_tree_mappings_are_sparse (t : BotStateTree) :
  ( (forall n, get_path ["mcu_params"; McuParamName_str n] (BotStateTree_to_js t)
               = js_or_undefined js_number (read (mcu_params t n))) /\
    (forall k, get_path ["pins"; k] (BotStateTree_to_js t)
               = js_or_undefined Pin_to_js (dict_read (pins t) k)) /\
    (forall n, get_path ["configuration"; ConfigurationName_str n] (BotStateTree_to_js t)
               = js_or_undefined id (read (Configuration_field (configuration t) n))) /\
    (forall k, get_path ["jobs"; k] (BotStateTree_to_js t)
               = js_or_undefined JobProgress_to_js (dict_read (jobs t) k)) /\
    (forall k, get_path ["user_env"; k] (BotStateTree_to_js t)
               = js_or_undefined js_string (dict_read (user_env t) k)) /\
    (forall k, get_path ["enigmas"; k] (BotStateTree_to_js t)
               = js_or_undefined Enigma_to_js (enigmas t ≫= fun d => dict_read d k)) /\
    (forall pin, get_path ["gpio_registry"; pin] (BotStateTree_to_js t)
               = js_or_undefined js_string (gpio_registry t ≫= fun g => dict_read g pin)) ) /\
  ( (forall n, read (mcu_params t n) = None <->
               mcu_params t n = Absent \/ mcu_params t n = Undefined) /\
    (forall k, dict_read (pins t) k = None <->
               pins t !! k = None \/ pins t !! k = Some None) /\
    (forall n, read (Configuration_field (configuration t) n) = None <->
               Configuration_field (configuration t) n = Absent \/
               Configuration_field (configuration t) n = Undefined) /\
    (forall k, dict_read (jobs t) k = None <->
               jobs t !! k = None \/ jobs t !! k = Some None) /\
    (forall k, dict_read (user_env t) k = None <->
               user_env t !! k = None \/ user_env t !! k = Some None) /\
    (forall k, (enigmas t ≫= fun d => dict_read d k) = None <->
               enigmas t = None \/
               exists d, enigmas t = Some d /\ (d !! k = None \/ d !! k = Some None)) /\
    (forall pin, (gpio_registry t ≫= fun g => dict_read g pin) = None <->
               gpio_registry t = None \/
               exists g, gpio_registry t = Some g /\
                         (g !! pin = None \/ g !! pin = Some None)) ) /\
  ( (forall n, exists p0 p1 : McuParams, p0 n = Absent /\ p1 n = Undefined) /\
    (forall k, exists d0 d1 : Pins, d0 !! k = None /\ d1 !! k = Some None) /\
    (forall n, exists c0 c1 : Configuration,
       Configuration_field c0 n = Absent /\ Configuration_field c1 n = Undefined) /\
    (forall k, exists d0 d1 : Dictionary (option JobProgress),
       d0 !! k = None /\ d1 !! k = Some None) /\
    (forall k, exists d0 d1 : Dictionary (option string),
       d0 !! k = None /\ d1 !! k = Some None) /\
    (forall k, exists d0 d1 : Dictionary (option Enigma),
       d0 !! k = None /\ d1 !! k = Some None) /\
    (forall pin, exists g0 g1 : Dictionary (option string),
       g0 !! pin = None /\ g1 !! pin = Some None) ) /\
  ( forall (n : McuParamName) (c : ConfigurationName) (k pin : string),
      get_path ["mcu_params"; McuParamName_str n] (BotStateTree_to_js unknown_tree)
        = JSUndefined /\
      get_path ["pins"; k] (BotStateTree_to_js unknown_tree) = JSUndefined /\
      get_path ["configuration"; ConfigurationName_str c] (BotStateTree_to_js unknown_tree)
        = JSUndefined /\
      get_path ["jobs"; k] (BotStateTree_to_js unknown_tree) = JSUndefined /\
      get_path ["user_env"; k] (BotStateTree_to_js unknown_tree) = JSUndefined /\
      get_path ["enigmas"; k] (BotStateTree_to_js unknown_tree) = JSUndefined /\
      get_path ["gpio_registry"; pin] (BotStateTree_to_js unknown_tree)
        = JSUndefined ).
Proof.
  assert (Hread : forall (T : Type) (o : Optional T),
            read o = None <-> o = Absent \/ o = Undefined).
  { intros T []; simpl; intuition discriminate. }
  assert (Hdict : forall (K : Type) `(Countable K) (T : Type)
                    (d : gmap K (option T)) k,
            dict_read d k = None <-> d !! k = None \/ d !! k = Some None).
  { intros K ? ? T d k. unfold dict_read.
    destruct (d !! k) as [[]|]; intuition congruence. }
  assert (Hopt : forall (K : Type) `(Countable K) (T : Type)
                    (o : option (gmap K (option T))) k,
            (o ≫= fun d => dict_read d k) = None <->
            o = None \/ exists d, o = Some d /\ (d !! k = None \/ d !! k = Some None)).
  { intros K ? ? T [d|] k; simpl.
    - rewrite Hdict. split; [intros Hk; right; eauto|].
      by intros [Hk|(d' & [= <-] & Hk)].
    - split; [by left | done]. }
  assert (Hdicts : forall (K : Type) `(Countable K) (T : Type) (k : K),
            exists d0 d1 : gmap K (option T), d0 !! k = None /\ d1 !! k = Some None).
  { intros K ? ? T k. exists ∅, {[k := None]}.
    by rewrite lookup_empty, lookup_singleton_eq. }
  split; [|split; [|split]].
  - repeat split; intros.
    + apply get_mcu_param.
    + apply get_pin.
    + apply get_configuration.
    + apply get_job.
    + apply get_user_env.
    + apply get_enigma.
    + apply get_gpio_registry.
  - split; [intros; apply Hread|]. split; [intros; apply Hdict|].
    split; [intros; apply Hread|]. split; [intros; apply Hdict|].
    split; [intros; apply Hdict|]. split; intros; apply Hopt.
  - split; [|split; [apply Hdicts|split; [|repeat split; apply Hdicts]]].
    + intros n. by exists (fun _ => Absent), (fun _ => Undefined).
    + intros n. exists unknown_configuration.
      exists {| arduino_debug_messages := Undefined; auto_sync := Undefined;
                beta_opt_in := Undefined; disable_factory_reset := Undefined;
                firmware_hardware := Undefined; firmware_input_log := Undefined;
                firmware_output_log := Undefined; fw_auto_update := Undefined;
                network_not_found_timer := Undefined; os_auto_update := Undefined;
                sequence_body_log := Undefined; sequence_complete_log := Undefined;
                sequence_init_log := Undefined |}.
      by destruct n.
  - intros n c k pin.
    rewrite get_mcu_param, get_pin, get_configuration, get_job, get_user_env,
      get_enigma, get_gpio_registry.
    repeat split; try done. by destruct c.
Qed.

(** The object of a current manifest holds a string under [args], that of
    a legacy manifest an array: no object is the one and the other. *)
Lemma manifest_shapes_are_apart (c : FarmwareManifest) (l : LegacyFarmwareManifest) :
  Farmware_to_js (CurrentManifest c) <> Farmware_to_js (LegacyManifest l).
Proof.
  unfold Farmware_to_js, FarmwareManifest_to_js, LegacyFarmwareManifest_to_js.
  intros [= Heq].
  assert (H : open_object
                [ req "farmware_manifest_version" (js_string (fm_farmware_manifest_version c));
                  req "package" (js_string (fm_package c));
                  req "package_version" (js_string (fm_package_version c));
                  req "description" (js_string (fm_description c));
                  req "author" (js_string (fm_author c));
                  req "language" (js_string (fm_language c));
                  req "executable" (js_string (fm_executable c));
                  req "args" (js_string (fm_args c));
                  req "config" (JSObject (FarmwareConfig_to_js <$> fm_config c));
                  req "farmbot_os_version_requirement"
                    (js_string (fm_farmbot_os_version_requirement c));
                  req "farmware_tools_version_requirement"
                    (js_string (fm_farmware_tools_version_requirement c));
                  req "url" (js_string (fm_url c));
                  req "zip" (js_string (fm_zip c)) ] (fm_others c) !! "args"
              = Some (js_string (fm_args c))) by by declared_lookup.
  rewrite Heq in H. revert H. by declared_lookup.
Qed.

Lemma current_manifest_has_version (m : FarmwareManifest) :
  has_property "farmware_manifest_version" (FarmwareManifest_to_js m) = true.
Proof.
  unfold FarmwareManifest_to_js, has_property. apply bool_decide_eq_true.
  declared_lookup. by eexists.
Qed.

Lemma legacy_manifest_has_version (m : LegacyFarmwareManifest) :
  has_property "farmware_manifest_version" (LegacyFarmwareManifest_to_js m) =
  bool_decide (is_Some (lfm_others m !! "farmware_manifest_version")).
Proof.
  unfold LegacyFarmwareManifest_to_js, has_property.
  by rewrite lookup_open_object_other by declared_name.
Qed.

(** The property [farmware_manifest_version] alone does not tell the shape
    of a manifest: it is not so that a manifest is current exactly when it
    has the property and legacy exactly when it has not. *)
Remark presence_does_not_tell_the_shape :
  ~ (forall f : Farmware,
       (shape f = CurrentShape <->
          has_property "farmware_manifest_version" (Farmware_to_js f) = true) /\
       (shape f = LegacyShape <->
          has_property "farmware_manifest_version" (Farmware_to_js f) = false)).
Proof.
  intros H. destruct (H (LegacyManifest legacy_manifest_with_version)) as [[_ H1] _].
  discriminate H1. unfold Farmware_to_js. rewrite legacy_manifest_has_version.
  apply bool_decide_eq_true. simpl. rewrite lookup_singleton_eq. by eexists.
Qed.

(** C6 (amended). A manifest is of exactly one of two shapes, legacy or
    current, and no object is of both.  A current manifest always has the
    property [farmware_manifest_version], so a manifest without it is a
    legacy one.  The converse does not hold: the legacy interface declares
    no property of that name and does not exclude one, and a legacy
    manifest has it exactly when it carries one among its further
    properties. *)
Theorem current_manifest_has_farmware_manifest_version (f : Farmware) :
  ((exists m, f = CurrentManifest m) \/ (exists m, f = LegacyManifest m)) /\
  (forall c l, Farmware_to_js (CurrentManifest c) <> Farmware_to_js (LegacyManifest l)) /\
  (shape f = CurrentShape ->
     has_property "farmware_manifest_version" (Farmware_to_js f) = true) /\
  (has_property "farmware_manifest_version" (Farmware_to_js f) = false ->
     shape f = LegacyShape) /\
  (shape_of_js (Farmware_to_js f) = LegacyShape -> shape f = LegacyShape) /\
  match f with
  | CurrentManifest _ => True
  | LegacyManifest m =>
      has_property "farmware_manifest_version" (Farmware_to_js f) =
      bool_decide (is_Some (lfm_others m !! "farmware_manifest_version"))
  end.
Proof.
  split; [|split; [apply manifest_shapes_are_apart|]].
  - destruct f as [m|m]; [left | right]; by exists m.
  - destruct f as [m|m]; unfold shape, shape_of_js, Farmware_to_js.
    + rewrite current_manifest_has_version. done.
    + repeat split; try done. apply legacy_manifest_has_version.
Qed.

(** C7. A record of the jobs table (a known entry of
    [Dictionary<JobProgress | undefined>]) is of exactly one of two kinds:
    percent progress, whose [unit] is "percent" and which holds a number
    [percent] and no [bytes], or bytes progress, whose [unit] is "bytes"
    and which holds a number [bytes] and no [percent]; and its [status] is
    one of complete, working and error. *)
Theorem job_progress_is_percent_or_bytes (j : JobProgress) :
  ( (exists p, j = JobPercentage p /\
       get_path ["unit"] (JobProgress_to_js j) = js_string "percent" /\
       get_path ["percent"] (JobProgress_to_js j) = js_number (pp_percent p) /\
       has_property "bytes" (JobProgress_to_js j) = false) \/
    (exists b, j = JobBytes b /\
       get_path ["unit"] (JobProgress_to_js j) = js_string "bytes" /\
       get_path ["bytes"] (JobProgress_to_js j) = js_number (bp_bytes b) /\
       has_property "percent" (JobProgress_to_js j) = false) ) /\
  (forall p b, JobPercentage p <> JobBytes b) /\
  (JobProgress_status j = complete \/ JobProgress_status j = working \/
   JobProgress_status j = error) /\
  get_path ["status"] (JobProgress_to_js j) =
    js_string (ProgressStatus_str (JobProgress_status j)) /\
  (get_path ["status"] (JobProgress_to_js j) = js_string "complete" \/
   get_path ["status"] (JobProgress_to_js j) = js_string "working" \/
   get_path ["status"] (JobProgress_to_js j) = js_string "error").
Proof.
  assert (Hstatus : get_path ["status"] (JobProgress_to_js j) =
                    js_string (ProgressStatus_str (JobProgress_status j))).
  { destruct j as [p|b]; simpl; unfold field; object_lookup; done. }
  split; [|split; [done|split; [|split; [exact Hstatus|]]]].
  - destruct j as [p|b]; [left; exists p | right; exists b];
      (split; [done|]); simpl; unfold field;
      repeat split; try (object_lookup; done);
      apply bool_decide_eq_false; object_lookup; by intros [? ?].
  - destruct (JobProgress_status j); auto.
  - rewrite Hstatus. destruct (JobProgress_status j); auto.
Qed.

(** C8. The location data of a state tree holds exactly the three
    coordinate systems raw encoders, scaled encoders and commanded position,
    each an object with exactly the axes x, y and z, each axis holding a
    number or [undefined]; any single axis of any single system can be
    unknown while all the others stay as they are. *)
Theorem location_data_three_coordinate_systems (t : BotStateTree) :
  (forall n : LocationName,
     n = raw_encoders \/ n = scaled_encoders \/ n = position) /\
  (exists m : gmap string JSValue,
     get_path ["location_data"] (BotStateTree_to_js t) = JSObject m /\
     dom m = ({["raw_encoders"; "scaled_encoders"; "position"]} : gset string) /\
     forall n, exists a : gmap string JSValue,
       m !! LocationName_str n = Some (JSObject a) /\
       dom a = ({["x"; "y"; "z"]} : gset string) /\
       forall i,
         a !! Xyz_str i = Some (js_or_undefined js_number (location_data t n i)) /\
         (a !! Xyz_str i = Some JSUndefined \/
          exists v, a !! Xyz_str i = Some (js_number v))) /\
  (forall n i,
     location_data (forget_axis n i t) n i = None /\
     forall n' i', (n', i') <> (n, i) ->
       location_data (forget_axis n i t) n' i' = location_data t n' i').
Proof.
  split; [by intros []; auto|]. split.
  - eexists. split; [|split].
    + unfold BotStateTree_to_js. rewrite get_path_cons_object.
      erewrite field_Some; [| object_lookup; reflexivity]. reflexivity.
    + unfold object, req. simpl. rewrite !dom_insert_L, dom_empty_L. set_solver.
    + intros n. eexists. split; [|split].
      * destruct n; cbn [fmap list_fmap all_LocationName LocationName_str];
          object_lookup; reflexivity.
      * unfold object, req. simpl. rewrite !dom_insert_L, dom_empty_L. set_solver.
      * intros i.
        assert (Hi : object ((fun i => req (Xyz_str i)
                       (js_or_undefined js_number (location_data t n i))) <$> all_Xyz)
                     !! Xyz_str i
                     = Some (js_or_undefined js_number (location_data t n i))).
        { destruct i; cbn [fmap list_fmap all_Xyz Xyz_str]; object_lookup;
            reflexivity. }
        split; [exact Hi|]. rewrite Hi.
        destruct (location_data t n i) as [v|]; [right; by exists v | by left].
  - intros n i. split.
    + simpl. by rewrite decide_True.
    + intros n' i' Hne. simpl. rewrite decide_False; [done|].
      intros [-> ->]. by apply Hne.
Qed.

(** C9. In the informational settings the properties busy, locked, commit,
    firmware_commit, target, env and node_name are always there and never
    [undefined]; the metrics uptime, disk_usage, memory_usage, wifi_level,
    sync_status, controller_version and firmware_version are there exactly
    when the settings do not leave them out, and all of them can be left
    out. *)
Theorem informational_settings_required_fields (i : InformationalSettings) :
  Forall (fun k =>
            has_property k (InformationalSettings_to_js i) = true /\
            get_path [k] (InformationalSettings_to_js i) <> JSUndefined)
         required_informational_settings /\
  ( has_property "uptime" (InformationalSettings_to_js i)
      = negb (is_absent (uptime i)) /\
    has_property "disk_usage" (InformationalSettings_to_js i)
      = negb (is_absent (disk_usage i)) /\
    has_property "memory_usage" (InformationalSettings_to_js i)
      = negb (is_absent (memory_usage i)) /\
    has_property "wifi_level" (InformationalSettings_to_js i)
      = negb (is_absent (wifi_level i)) /\
    has_property "sync_status" (InformationalSettings_to_js i)
      = negb (is_absent (sync_status i)) /\
    has_property "controller_version" (InformationalSettings_to_js i)
      = negb (is_absent (controller_version i)) /\
    has_property "firmware_version" (InformationalSettings_to_js i)
      = negb (is_absent (firmware_version i)) ) /\
  Forall (fun k =>
            has_property k (InformationalSettings_to_js unknown_informational_settings)
              = false)
         optional_metrics.
Proof.
  assert (Hopt : forall (T : Type) (f : T -> JSValue) (o : Optional T),
            bool_decide (is_Some (optional_lookup (optional_map f o) None))
            = negb (is_absent o)).
  { by intros T f []. }
  split; [|split].
  - unfold required_informational_settings, InformationalSettings_to_js.
    repeat apply Forall_cons_2; try apply Forall_nil_2.
    all: split;
      [ unfold has_property; apply bool_decide_eq_true; object_lookup; by eexists
      | rewrite get_path_cons_object; erewrite field_Some; [|object_lookup; reflexivity];
        done ].
  - unfold InformationalSettings_to_js, has_property.
    repeat split; object_lookup; apply Hopt.
  - unfold optional_metrics.
    repeat apply Forall_cons_2; try apply Forall_nil_2.
    all: unfold has_property; simpl; apply bool_decide_eq_false;
      object_lookup; by intros [? ?].
Qed.

(** C10. The [args] of a manifest are represented differently in the two
    shapes: in a legacy manifest [args] is an array of strings, in a
    current manifest it is one string; so which of the two a manifest's
    [args] is follows its shape. *)
Theorem manifest_args_follow_the_shape (f : Farmware) :
  match f with
  | LegacyManifest m =>
      get_path ["args"] (Farmware_to_js f) = JSArray (js_string <$> lfm_args m)
  | CurrentManifest m =>
      get_path ["args"] (Farmware_to_js f) = js_string (fm_args m)
  end /\
  is_array_of_strings (get_path ["args"] (Farmware_to_js f)) =
    match shape f with LegacyShape => true | CurrentShape => false end /\
  is_string (get_path ["args"] (Farmware_to_js f)) =
    match shape f with LegacyShape => false | CurrentShape => true end.
Proof.
  destruct f as [m|m]; unfold Farmware_to_js, shape.
  - assert (H : get_path ["args"] (FarmwareManifest_to_js m) = js_string (fm_args m)).
    { unfold FarmwareManifest_to_js. rewrite get_path_cons_object.
      erewrite field_Some; [|declared_lookup; reflexivity]. done. }
    by rewrite H.
  - assert (H : get_path ["args"] (LegacyFarmwareManifest_to_js m) =
                JSArray (js_string <$> lfm_args m)).
    { unfold LegacyFarmwareManifest_to_js. rewrite get_path_cons_object.
      erewrite field_Some; [|declared_lookup; reflexivity]. done. }
    rewrite H. split; [done|]. split; [|done].
    clear H. simpl. induction (lfm_args m) as [|a l IH]; [done|]. exact IH.
Qed.

(** ** Further properties of the data model *)

Section shapes.
Implicit Types (k : string) (fs : list (string * Optional JSValue)).

Lemma dom_set_optional k (o : Optional JSValue) (m : gmap string JSValue) :
  dom (set_optional k o m) =
  (if is_absent o then ∅ else {[k]}) ∪ dom m.
Proof.
  destruct o; simpl.
  - by rewrite (left_id_L ∅ (∪)).
  - by rewrite dom_insert_L.
  - by rewrite dom_insert_L.
Qed.

Lemma dom_object fs : dom (object fs) = list_to_set (listed_keys fs).
Proof.
  induction fs as [|[k o] fs IH]; [apply dom_empty_L|].
  change (object ((k, o) :: fs)) with (set_optional k o (object fs)).
  rewrite dom_set_optional, IH. unfold listed_keys. simpl.
  destruct (is_absent o); simpl; [by rewrite (left_id_L ∅ (∪))|done].
Qed.

Lemma keys_object fs : keys (JSObject (object fs)) = list_to_set (listed_keys fs).
Proof. apply dom_object. Qed.

End shapes.

(** Reading a literal property of an object given by the list of its
    properties. *)
Ltac read_property :=
  rewrite get_path_cons_object; erewrite field_Some;
  [| object_lookup; reflexivity].

(** X6. The numeric enum [Encoder]: [unknown] is -1 and the members after
    it are numbered on from there, 0 and 1.  The values are pairwise
    distinct, the reverse mapping gives back the member of a value, and it
    is defined on -1, 0 and 1 only. *)
Theorem Encoder_values_round_trip :
  Encoder_value Encoder_unknown = (-1)%Z /\
  Encoder_value Encoder_quadrature = (Encoder_value Encoder_unknown + 1)%Z /\
  Encoder_value Encoder_differential = (Encoder_value Encoder_quadrature + 1)%Z /\
  (forall e, Encoder_of_value (Encoder_value e) = Some e) /\
  (forall z e, Encoder_of_value z = Some e <-> Encoder_value e = z) /\
  (forall z, is_Some (Encoder_of_value z) <-> (-1 <= z <= 1)%Z) /\
  (forall e e', Encoder_name e = Encoder_name e' -> e = e').
Proof.
  assert (Hrt : forall e, Encoder_of_value (Encoder_value e) = Some e)
    by (by intros []).
  assert (Hinv : forall z e, Encoder_of_value z = Some e -> Encoder_value e = z).
  { intros z e. unfold Encoder_of_value, all_Encoder.
    rewrite !filter_cons, filter_nil. repeat case_decide; simpl; congruence. }
  split; [done|]. split; [done|]. split; [done|]. split; [exact Hrt|].
  split; [|split].
  - intros z e. split; [apply Hinv | intros <-; apply Hrt].
  - intros z. split.
    + intros [e He]. apply Hinv in He as <-. destruct e; simpl; lia.
    + intros Hz.
      assert (z = (-1)%Z \/ z = 0%Z \/ z = 1%Z) as [->|[->| ->]] by lia;
        by eexists.
  - by intros [] [].
Qed.

Section parameter_names.

Lemma McuParamName_of_str_round_trip (n : McuParamName) :
  McuParamName_of_str (McuParamName_str n) = Some n.
Proof. by destruct n. Qed.

Lemma McuParamName_of_str_Some (s : string) (n : McuParamName) :
  McuParamName_of_str s = Some n -> McuParamName_str n = s.
Proof.
  unfold McuParamName_of_str. intros H%head_Some_elem_of.
  by apply list_elem_of_filter in H as [? _].
Qed.

Lemma McuParamName_str_inj (n n' : McuParamName) :
  McuParamName_str n = McuParamName_str n' -> n = n'.
Proof.
  intros H. pose proof (McuParamName_of_str_round_trip n) as Hn.
  rewrite H, McuParamName_of_str_round_trip in Hn. congruence.
Qed.

End parameter_names.

(** X7. No two microcontroller parameters share a name: the eighty-nine
    names are pairwise distinct, a name determines its parameter, and
    going from a parameter to its name and back gives the parameter. *)
Theorem mcu_param_names_are_distinct :
  length all_McuParamName = 89 /\
  NoDup (McuParamName_str <$> all_McuParamName) /\
  (forall n, n ∈ all_McuParamName) /\
  (forall n, McuParamName_of_str (McuParamName_str n) = Some n) /\
  (forall s n, McuParamName_of_str s = Some n <-> McuParamName_str n = s) /\
  (forall n n', McuParamName_str n = McuParamName_str n' -> n = n').
Proof.
  split; [done|]. split; [apply McuParamName_str_NoDup|].
  split; [apply all_McuParamName_complete|].
  split; [apply McuParamName_of_str_round_trip|]. split.
  - intros s n. split; [apply McuParamName_of_str_Some|].
    intros <-. apply McuParamName_of_str_round_trip.
  - apply McuParamName_str_inj.
Qed.

(** X8. The per-axis parameters come in full families: whenever a
    parameter name ends in an axis, the names with the same stem exist for
    all three axes, except for the two secondary-motor settings, which
    exist for the x axis only. *)
Theorem mcu_param_axis_families (n : McuParamName) :
  match axis_stem (McuParamName_str n) with
  | None => True
  | Some stem =>
      if bool_decide (stem = "movement_secondary_motor" \/
                      stem = "movement_secondary_motor_invert")
      then is_Some (McuParamName_of_str (axis_name stem axis_x)) /\
           McuParamName_of_str (axis_name stem axis_y) = None /\
           McuParamName_of_str (axis_name stem axis_z) = None
      else is_Some (McuParamName_of_str (axis_name stem axis_x)) /\
           is_Some (McuParamName_of_str (axis_name stem axis_y)) /\
           is_Some (McuParamName_of_str (axis_name stem axis_z))
  end.
Proof.
  destruct n; vm_compute;
    repeat first [ exact I | reflexivity | split | eexists ].
Qed.

(** X14. A [Vector3] has exactly the axes x, y and z, each holding a
    number; an entry of the location data is a [Vector3] exactly when all
    three of its axes are known. *)
Theorem vector3_is_a_complete_location (v : Vector3) (a : Xyz -> option number) :
  keys (Vector3_to_js v) = list_to_set ["x"; "y"; "z"] /\
  (forall i, get_path [Xyz_str i] (Vector3_to_js v) = js_number (v i)) /\
  (axes_to_js a = Vector3_to_js v <-> forall i, a i = Some (v i)).
Proof.
  assert (Hv : forall i, get_path [Xyz_str i] (Vector3_to_js v) = js_number (v i)).
  { intros i. unfold Vector3_to_js.
    destruct i; cbn [fmap list_fmap all_Xyz Xyz_str]; by read_property. }
  assert (Ha : forall i, get_path [Xyz_str i] (axes_to_js a) =
                         js_or_undefined js_number (a i)).
  { intros i. unfold axes_to_js.
    destruct i; cbn [fmap list_fmap all_Xyz Xyz_str]; by read_property. }
  split; [|split; [exact Hv|split]].
  - unfold Vector3_to_js. by rewrite keys_object.
  - intros Heq i. specialize (Ha i). rewrite Heq, Hv in Ha.
    destruct (a i) as [n|]; simpl in Ha; [|done]. by injection Ha as ->.
  - intros Hall. unfold axes_to_js, Vector3_to_js.
    cbn [fmap list_fmap all_Xyz]. by rewrite !Hall.
Qed.

End Farmbot.

(** ** The properties on concrete states, with integers for numbers *)

Lemma merge_leaves_absent_fields_unchanged_witness :
  absent_in ["pins"; "1"] (location_delta 10%Z 20%Z) = true /\
  get_path ["pins"; "1"]
    (snapshot (merge_partial (location_delta 10%Z 20%Z)
                 (store_with_pin {| pin_mode := 0%Z; pin_value := 5%Z |}))) =
  get_path ["pins"; "1"]
    (snapshot (store_with_pin {| pin_mode := 0%Z; pin_value := 5%Z |})).
Proof.
  assert (H : absent_in ["pins"; "1"] (location_delta 10%Z 20%Z) = true)
    by (vm_compute; reflexivity).
  split; [exact H|].
  exact (proj1 (merge_leaves_absent_fields_unchanged
                  (store_with_pin {| pin_mode := 0%Z; pin_value := 5%Z |})
                  (location_delta 10%Z 20%Z) ["pins"; "1"] H)).
Defined.

Lemma send_registers_before_publishing_witness :
  ids_below_counter (@empty_engine Z) /\
  (send echo_transport 0 move_command no_options (@empty_engine Z)).1 = 0%N /\
  deliveries_to 0
    (correlator (send echo_transport 0 move_command no_options (@empty_engine Z)).2) =
    [ResolvedSuccess move_command].
Proof.
  split; [apply ids_below_counter_empty|].
  destruct (send_registers_before_publishing echo_transport 0 move_command
              no_options (@empty_engine Z) ids_below_counter_empty)
    as (H1 & _ & H3).
  split; [exact H1 | exact H3].
Defined.

Lemma resolve_and_reject_deliver_once_witness :
  Forall (fun o => registers 7 o = false) (@duplicate_replies Z) /\
  deliveries_to 7 (calls duplicate_replies (@one_pending Z)) =
    [ResolvedSuccess (js_string "first")].
Proof.
  assert (H : Forall (fun o => registers 7 o = false) (@duplicate_replies Z))
    by (repeat constructor).
  split; [exact H|].
  exact (proj1 (resolve_and_reject_deliver_once one_pending 7 duplicate_replies H)).
Defined.

(** A legacy manifest that carries a property named
    [farmware_manifest_version]: it is a legacy manifest, its [args] is an
    array of strings, and it has the property by which a current manifest
    would be told. *)
Lemma legacy_manifest_with_version_counterexample :
  shape (LegacyManifest (@legacy_manifest_with_version Z)) = LegacyShape /\
  has_property "farmware_manifest_version"
    (Farmware_to_js (LegacyManifest (@legacy_manifest_with_version Z))) = true /\
  shape_of_js (Farmware_to_js (LegacyManifest (@legacy_manifest_with_version Z)))
    = CurrentShape /\
  is_array_of_strings
    (get_path ["args"] (Farmware_to_js (LegacyManifest (@legacy_manifest_with_version Z))))
    = true.
Proof. vm_compute. repeat split. Qed.
